(** * run_sumo.py: anomaly injection and detection over a TraCI session

    A shallow embedding of [src/run_sumo.py].  The script talks to a running
    traffic simulation through the TraCI client library, keeps one module
    level dictionary ([stop_counters]) and writes lines to standard output.

    - The simulator is an abstract type [W] with the six client calls the
      script uses (class [TraCI]); every call may raise.
    - Python's [float] is IEEE binary64, which is Rocq's primitive [float].
    - [stop_counters] is a [gmap string Z]; Python integers are unbounded.
    - Effects are threaded through a state-and-exception monad [M]; each
      client call, each exception raised and each printed line is appended
      to [trace]. *)

From Stdlib Require Import ZArith String Ascii List Lia DecimalString Floats.
From Stdlib Require Import DecimalPos DecimalZ.
From stdpp Require Import base option list gmap strings.

Local Open Scope Z_scope.
Local Open Scope string_scope.

(** ** Configuration (lines 11-13) *)

Definition SUMO_CFG : string := "twoIntersection.sumocfg".
Definition STOP_TIME_THRESHOLD : Z := 5.
Definition UNAUTHORIZED_VEHICLE_PREFIX : string := "unauth".

(** ** Python primitives used by the script *)

(** [str(n)] for an integer [n]: decimal digits, with a leading minus sign
    for negative numbers. *)
Definition str_int (n : Z) : string := NilZero.string_of_int (Z.to_int n).

(** [s.startswith(p)] *)
Definition startswith (s p : string) : bool := String.prefix p s.

(** The binary64 number that the literal [0.1] denotes. *)
Definition tenth : float := 0x1.999999999999ap-4%float.

(** The test [speed < 0.1] of line 95. *)
Definition stopped (speed : float) : bool := PrimFloat.ltb speed tenth.

(** ** Exceptions and outcomes *)

Inductive exn : Type :=
| TraCIException (desc : string)
| FatalTraCIError (desc : string)
| KeyError (key : string).

(** [str(e)].  A [KeyError] prints the [repr] of its key: for a key of
    plain characters (no quote, no backslash, nothing to escape), as vehicle
    IDs are, the key between single quotes. *)
Definition str_exn (e : exn) : string :=
  match e with
  | TraCIException d => d
  | FatalTraCIError d => d
  | KeyError k => "'" ++ k ++ "'"
  end.

Inductive outcome (A : Type) : Type :=
| Ok (a : A)
| Raise (e : exn).
Arguments Ok {A} a.
Arguments Raise {A} e.

(** ** The remote simulation control API *)

Class TraCI (W : Type) : Type := {
  traci_start : W -> list string -> outcome W;
  traci_simulationStep : W -> outcome W;
  traci_vehicle_getIDList : W -> outcome (list string);
  traci_vehicle_getSpeed : W -> string -> outcome float;
  traci_vehicle_setSpeed : W -> string -> float -> outcome W;
  traci_vehicle_add :
    W -> string -> string -> string -> string -> string -> outcome W
}.

(** Requests sent to the simulator, in the order of the client calls. *)
Inductive api_call : Type :=
| Start (cmd : list string)
| SimulationStep
| GetIDList
| GetSpeed (vehID : string)
| SetSpeed (vehID : string) (speed : float)
| Add (vehID routeID departPos departSpeed typeID : string).

(** Lines written by [print]. *)
Inductive message : Type :=
| InfoStarted
| InfoFinished
| ForcingStop (veh_to_stop : string)
| InjectingUnauthorized (new_id : string)
| CouldNotInject (e : string)
| StoppedFor (vid : string)
| UnauthorizedOnNetwork (vid : string).

(** The text of each line, as the f-strings build it. *)
Definition render (m : message) : string :=
  match m with
  | InfoStarted => "[INFO] SUMO simulation started with TraCI."
  | InfoFinished => "[INFO] Simulation finished."
  | ForcingStop v => "[Anomaly Injection] Forcing " ++ v ++ " to stop."
  | InjectingUnauthorized v =>
      "[Anomaly Injection] Injecting unauthorized vehicle: " ++ v
  | CouldNotInject e => "[ERROR] Could not inject unauthorized vehicle: " ++ e
  | StoppedFor v =>
      "[ANOMALY DETECTED] " ++ v ++ " has been stopped for "
        ++ str_int STOP_TIME_THRESHOLD ++ " steps."
  | UnauthorizedOnNetwork v =>
      "[ANOMALY DETECTED] Unauthorized vehicle on network: " ++ v
  end.

(** What a run leaves behind, in order: the requests sent, the exceptions
    raised, the lines printed. *)
Inductive event : Type :=
| Api (c : api_call)
| Raised (e : exn)
| Print (m : message).

(** ** Program state and the monad *)

Record state (W R : Type) : Type := mkState {
  sim : W;                          (* the simulation behind the API *)
  rng : R;                          (* the generator behind [random] *)
  stop_counters : gmap string Z;    (* the global of line 16 *)
  trace : list event                (* what the run has done so far *)
}.
Arguments mkState {W R} _ _ _ _.
Arguments sim {W R} _.
Arguments rng {W R} _.
Arguments stop_counters {W R} _.
Arguments trace {W R} _.

Definition M (W R A : Type) : Type := state W R -> outcome A * state W R.

Section Monad.
Context {W R : Type}.

Definition ret {A} (a : A) : M W R A := fun st => (Ok a, st).

Definition bind {A B} (m : M W R A) (k : A -> M W R B) : M W R B :=
  fun st =>
    match m st with
    | (Ok a, st') => k a st'
    | (Raise e, st') => (Raise e, st')
    end.

Definition raise {A} (e : exn) : M W R A :=
  fun st =>
    (Raise e,
     mkState (sim st) (rng st) (stop_counters st) (trace st ++ [Raised e])).

(** [try: m except TraCIException as e: h e]; other exceptions pass. *)
Definition try_except_TraCIException {A}
    (m : M W R A) (h : exn -> M W R A) : M W R A :=
  fun st =>
    match m st with
    | (Raise (TraCIException d), st') => h (TraCIException d) st'
    | r => r
    end.

Definition emit (e : event) : M W R unit :=
  fun st =>
    (Ok tt, mkState (sim st) (rng st) (stop_counters st) (trace st ++ [e])).

Definition print (m : message) : M W R unit := emit (Print m).

Definition get_stop_counters : M W R (gmap string Z) :=
  fun st => (Ok (stop_counters st), st).

Definition put_stop_counters (sc : gmap string Z) : M W R unit :=
  fun st => (Ok tt, mkState (sim st) (rng st) sc (trace st)).

(** A client call that reads the simulation, and one that acts on it. *)
Definition lift_query {A} (f : W -> outcome A) : M W R A :=
  fun st =>
    match f (sim st) with
    | Ok a => (Ok a, st)
    | Raise e => raise e st
    end.

Definition lift_command (f : W -> outcome W) : M W R unit :=
  fun st =>
    match f (sim st) with
    | Ok w => (Ok tt, mkState w (rng st) (stop_counters st) (trace st))
    | Raise e => raise e st
    end.
End Monad.

Declare Scope prog_scope.
Delimit Scope prog_scope with prog.
Notation "x <- m ;; k" := (bind m (fun x => k))
  (at level 100, m at next level, k at level 200, right associativity)
  : prog_scope.
Notation "m ;; k" := (bind m (fun _ => k))
  (at level 100, k at level 200, right associativity) : prog_scope.
Local Open Scope prog_scope.

(** [for x in l: body x] *)
Fixpoint for_each {W R A} (l : list A) (body : A -> M W R unit) : M W R unit :=
  match l with
  | [] => ret tt
  | x :: l' => body x ;; for_each l' body
  end.

(** [range(n)] *)
Definition range (n : nat) : list nat := seq 0 n.

(** ** The script *)

Section Script.
Context {W R : Type} {api : TraCI W}.

(** [random.choice]: the element drawn and the generator afterwards. *)
Variable random_choice : R -> list string -> string * R.

Local Abbreviation M := (M W R).

(** *** Client calls, each logged before it is answered *)

Definition start (cmd : list string) : M unit :=
  emit (Api (Start cmd)) ;; lift_command (fun w => traci_start w cmd).

Definition simulationStep : M unit :=
  emit (Api SimulationStep) ;; lift_command traci_simulationStep.

Definition vehicle_getIDList : M (list string) :=
  emit (Api GetIDList) ;; lift_query traci_vehicle_getIDList.

Definition vehicle_getSpeed (vehID : string) : M float :=
  emit (Api (GetSpeed vehID)) ;;
  lift_query (fun w => traci_vehicle_getSpeed w vehID).

Definition vehicle_setSpeed (vehID : string) (speed : float) : M unit :=
  emit (Api (SetSpeed vehID speed)) ;;
  lift_command (fun w => traci_vehicle_setSpeed w vehID speed).

Definition vehicle_add (vehID routeID departPos departSpeed typeID : string)
  : M unit :=
  emit (Api (Add vehID routeID departPos departSpeed typeID)) ;;
  lift_command
    (fun w => traci_vehicle_add w vehID routeID departPos departSpeed typeID).

Definition choice (seq : list string) : M string :=
  fun st =>
    let (x, r) := random_choice (rng st) seq in
    (Ok x, mkState (sim st) r (stop_counters st) (trace st)).

(** [stop_counters[vid]] *)
Definition stop_counters_getitem (vid : string) : M Z :=
  sc <- get_stop_counters ;;
  match sc !! vid with
  | Some c => ret c
  | None => raise (KeyError vid)
  end.

(** [stop_counters[vid] = c] *)
Definition stop_counters_setitem (vid : string) (c : Z) : M unit :=
  sc <- get_stop_counters ;; put_stop_counters (<[vid := c]> sc).

(** [stop_counters.get(vid, d)] *)
Definition stop_counters_get (vid : string) (d : Z) : M Z :=
  sc <- get_stop_counters ;; ret (default d (sc !! vid)).

(** *** inject_sudden_stop_anomaly (lines 55-66) *)

Definition inject_sudden_stop_anomaly : M unit :=
  vehicle_ids <- vehicle_getIDList ;;
  match vehicle_ids with
  | [] => ret tt
  | _ :: _ =>
      veh_to_stop <- choice vehicle_ids ;;
      print (ForcingStop veh_to_stop) ;;
      vehicle_setSpeed veh_to_stop 0.0%float
  end.

(** *** inject_unauthorized_vehicle (lines 69-81)

    [now] is the value of [int(time.time())] when line 74 runs. *)

Definition inject_unauthorized_vehicle (now : Z) : M unit :=
  let new_id := UNAUTHORIZED_VEHICLE_PREFIX ++ str_int now in
  let route_id := "route_0" in
  try_except_TraCIException
    (vehicle_add new_id route_id "0" "max" "car" ;;
     print (InjectingUnauthorized new_id))
    (fun e => print (CouldNotInject (str_exn e))).

(** *** detect_anomalies (lines 84-105) *)

Definition detect_vehicle (vid : string) : M unit :=
  speed <- vehicle_getSpeed vid ;;
  (if stopped speed then
     c <- stop_counters_get vid 0 ;;
     stop_counters_setitem vid (c + 1) ;;
     c' <- stop_counters_getitem vid ;;
     if (c' =? STOP_TIME_THRESHOLD)%Z then print (StoppedFor vid) else ret tt
   else
     stop_counters_setitem vid 0) ;;
  if startswith vid UNAUTHORIZED_VEHICLE_PREFIX
  then print (UnauthorizedOnNetwork vid)
  else ret tt.

Definition detect_anomalies : M unit :=
  vehicle_ids <- vehicle_getIDList ;;
  for_each vehicle_ids detect_vehicle.

(** *** run_simulation (lines 19-53) *)

Definition sumo_cmd : list string :=
  ["sumo-gui"; "-c"; SUMO_CFG; "--start"; "--no-step-log"; "true"].

Definition loop_body (now : Z) (step : nat) : M unit :=
  simulationStep ;;
  (if (step =? 50)%nat then inject_sudden_stop_anomaly else ret tt) ;;
  (if (step =? 100)%nat then inject_unauthorized_vehicle now else ret tt) ;;
  detect_anomalies.

Definition run_simulation (now : Z) : M unit :=
  start sumo_cmd ;;
  print InfoStarted ;;
  for_each (range 300) (loop_body now) ;;
  print InfoFinished.

End Script.

(** ** Reading a run *)

Definition printed (tr : list event) : list message :=
  omap (fun e => match e with Print m => Some m | _ => None end) tr.

Definition requests (tr : list event) : list api_call :=
  omap (fun e => match e with Api c => Some c | _ => None end) tr.

(** The events a computation appended to the trace. *)
Definition new_events {W R} (st st' : state W R) : list event :=
  drop (length (trace st)) (trace st').

(** The state at program start: line 16 binds [stop_counters] to [{}]. *)
Definition initial {W R} (w : W) (r : R) : state W R := mkState w r ∅ [].

(** The same program state with the simulation in world [w]. *)
Definition at_world {W R} (w : W) (st : state W R) : state W R :=
  mkState w (rng st) (stop_counters st) (trace st).

(** ** What one pass of the detection loop computes *)

(** The counter stored for a vehicle seen with [speed] (lines 95-101). *)
Definition next_counter (old : option Z) (speed : float) : Z :=
  if stopped speed then default 0 old + 1 else 0.

(** The lines printed for a vehicle whose counter has become [c]. *)
Definition vehicle_messages (c : Z) (vid : string) (speed : float)
  : list message :=
  (if stopped speed && (c =? STOP_TIME_THRESHOLD)%Z
   then [StoppedFor vid] else [])
  ++ (if startswith vid UNAUTHORIZED_VEHICLE_PREFIX
      then [UnauthorizedOnNetwork vid] else []).

(** The loop of lines 93-105 when every speed query is answered. *)
Fixpoint scan (speed_of : string -> float) (ids : list string)
    (sc : gmap string Z) : gmap string Z * list event :=
  match ids with
  | [] => (sc, [])
  | vid :: ids' =>
      let s := speed_of vid in
      let c := next_counter (sc !! vid) s in
      let r := scan speed_of ids' (<[vid := c]> sc) in
      (r.1, Api (GetSpeed vid) :: map Print (vehicle_messages c vid s) ++ r.2)
  end.

(** Number of leading observations with speed below 0.1. *)
Fixpoint leading_streak (obs : list float) : nat :=
  match obs with
  | [] => O
  | s :: obs' => if stopped s then S (leading_streak obs') else O
  end.

(** Number of consecutive most recent observations with speed below 0.1;
    observations are listed oldest first. *)
Definition trailing_streak (obs : list float) : nat :=
  leading_streak (rev obs).

(** [speed >= 0.1] and [speed == 0] on binary64 numbers. *)
Definition at_least_tenth (speed : float) : bool := PrimFloat.leb tenth speed.
Definition is_zero (speed : float) : bool := PrimFloat.eqb speed 0%float.

Section Observation.
Context {W R : Type} {api : TraCI W}.

(** What a detection step in world [w] sees of vehicle [v]: its speed when
    [v] is in the ID list, nothing otherwise. *)
Definition observation (w : W) (v : string) : option float :=
  match traci_vehicle_getIDList w with
  | Ok ids =>
      if bool_decide (v ∈ ids) then
        match traci_vehicle_getSpeed w v with
        | Ok s => Some s
        | Raise _ => None
        end
      else None
  | Raise _ => None
  end.

(** The speeds seen of [v] over successive detection steps, oldest first;
    steps at which [v] is not listed contribute nothing. *)
Definition observations (ws : list W) (v : string) : list float :=
  omap (fun w => observation w v) ws.

(** The ID list of a world never names a vehicle twice. *)
Definition distinct_ids (w : W) : Prop :=
  forall ids, traci_vehicle_getIDList w = Ok ids -> NoDup ids.

Definition speed_or_zero (w : W) (v : string) : float :=
  match traci_vehicle_getSpeed w v with
  | Ok s => s
  | Raise _ => 0%float
  end.

(** One call of [detect_anomalies] with the simulation in world [w]. *)
Definition detection_step (w : W) (st : state W R)
  : outcome unit * state W R :=
  detect_anomalies (at_world w st).

(** Successive calls of [detect_anomalies], the simulation being in the
    worlds [ws] one after the other; an exception ends the run. *)
Fixpoint detection_steps (ws : list W) (st : state W R)
  : outcome unit * state W R :=
  match ws with
  | [] => (Ok tt, st)
  | w :: ws' =>
      match detection_step w st with
      | (Ok _, st') => detection_steps ws' st'
      | (Raise e, st') => (Raise e, st')
      end
  end.

(** The lines a detection step in world [w] prints from state [st]. *)
Definition step_output (w : W) (st : state W R) : list message :=
  printed (new_events (at_world w st) (detection_step w st).2).
End Observation.

(** ** The shape of a run: which requests reach the simulator, in order *)

Inductive marker : Type := Tick | Poll | Stop | Insert.

Definition marker_of (e : event) : option marker :=
  match e with
  | Api SimulationStep => Some Tick
  | Api GetIDList => Some Poll
  | Api (SetSpeed _ _) => Some Stop
  | Api (Add _ _ _ _ _) => Some Insert
  | _ => None
  end.

Definition skeleton (tr : list event) : list marker := omap marker_of tr.

(** The markers of loop step [step]: the simulation advances; at step 50 the
    stop injection polls the ID list and, when [stop_sent], stops a vehicle;
    at step 100 the insertion is requested; then detection polls. *)
Definition injection_markers (stop_sent : bool) (step : nat) : list marker :=
  ([Tick]
   ++ (if (step =? 50)%nat then Poll :: (if stop_sent then [Stop] else [])
       else [])
   ++ (if (step =? 100)%nat then [Insert] else []))%list.

Definition iteration_markers (stop_sent : bool) (step : nat) : list marker :=
  (injection_markers stop_sent step ++ [Poll])%list.

Definition schedule (stop_sent : bool) (steps : list nat) : list marker :=
  flat_map (iteration_markers stop_sent) steps.

Definition is_marker (m m' : marker) : bool :=
  match m, m' with
  | Tick, Tick | Poll, Poll | Stop, Stop | Insert, Insert => true
  | _, _ => false
  end.

#[global] Instance marker_eq_dec : EqDecision marker.
Proof. solve_decision. Defined.

Definition count_marker (m : marker) (l : list marker) : nat :=
  length (filter (fun m' => is_marker m m' = true) l).

(** ** A small simulator, for running the script on concrete inputs *)

Module Toy.
(** A world is the list of vehicles on the network with their speeds; it
    does not move by itself. *)
Definition world : Type := list (string * float).

Definition find_speed (w : world) (v : string) : option float :=
  snd <$> List.find (fun p => String.eqb (fst p) v) w.

Definition set_speed (w : world) (v : string) (s : float) : world :=
  map (fun p => if String.eqb (fst p) v then (v, s) else p) w.

#[global] Instance api : TraCI world := {|
  traci_start w _ := Ok w;
  traci_simulationStep w := Ok w;
  traci_vehicle_getIDList w := Ok (map fst w);
  traci_vehicle_getSpeed w v :=
    match find_speed w v with
    | Some s => Ok s
    | None => Raise (TraCIException ("Vehicle '" ++ v ++ "' is not known."))
    end;
  traci_vehicle_setSpeed w v s :=
    match find_speed w v with
    | Some _ => Ok (set_speed w v s)
    | None => Raise (TraCIException ("Vehicle '" ++ v ++ "' is not known."))
    end;
  traci_vehicle_add w v _ _ _ _ :=
    match find_speed w v with
    | Some _ =>
        Raise (TraCIException ("The vehicle '" ++ v ++ "' to add already exists."))
    | None => Ok (w ++ [(v, 0%float)])%list
    end
|}.

(** A simulator that rejects every insertion and has lost its connection
    for every other request after start. *)
Definition closed : TraCI world := {|
  traci_start w _ := Ok w;
  traci_simulationStep w := Raise (FatalTraCIError "connection closed by SUMO");
  traci_vehicle_getIDList w := Raise (FatalTraCIError "connection closed by SUMO");
  traci_vehicle_getSpeed w v := Raise (FatalTraCIError "connection closed by SUMO");
  traci_vehicle_setSpeed w v s := Raise (FatalTraCIError "connection closed by SUMO");
  traci_vehicle_add w v _ _ _ _ := Raise (FatalTraCIError "connection closed by SUMO")
|}.

(** A simulator whose ID list still names a vehicle, "ghost", that it no
    longer knows: the speed query for it raises. *)
Definition stale : TraCI world := {|
  traci_start w _ := Ok w;
  traci_simulationStep w := Ok w;
  traci_vehicle_getIDList w := Ok (map fst w ++ ["ghost"])%list;
  traci_vehicle_getSpeed := @traci_vehicle_getSpeed world api;
  traci_vehicle_setSpeed := @traci_vehicle_setSpeed world api;
  traci_vehicle_add := @traci_vehicle_add world api
|}.

(** The generator is a counter; [choice] takes the element at that index
    modulo the length. *)
Definition random_choice (r : nat) (l : list string) : string * nat :=
  (nth (r mod length l) l "", S r).
End Toy.

(** ** Vocabulary for histories of detection steps *)

(** The counter stored for a vehicle after the observations [obs], starting
    from the entry [c] ([None]: no entry). *)
Definition counter_after (c : option Z) (obs : list float) : option Z :=
  foldl (fun c s => Some (next_counter c s)) c obs.

Section History.
Context {W R : Type} {api : TraCI W}.

(** Vehicle [v] is listed in world [w] with a speed below 0.1. *)
Definition stopped_at (v : string) (w : W) : bool :=
  match observation w v with
  | Some s => stopped s
  | None => false
  end.

(** Vehicle [v] is listed in world [w] with a speed of exactly zero. *)
Definition zero_at (v : string) (w : W) : bool :=
  match observation w v with
  | Some s => is_zero s
  | None => false
  end.

(** [v] was seen below 0.1 at each of the [n] most recent detection steps
    of the history [ws] (oldest first). *)
Definition stopped_for_last (n : nat) (ws : list W) (v : string) : bool :=
  (n <=? length ws)%nat && forallb (stopped_at v) (drop (length ws - n) ws).

(** The program state after the detection steps [ws]. *)
Definition state_after (ws : list W) (st : state W R) : state W R :=
  (detection_steps ws st).2.

(** The detection step in world [w] from state [st] prints the stop
    anomaly, respectively the unauthorized-vehicle anomaly, for [v]. *)
Definition flags_stop (w : W) (st : state W R) (v : string) : Prop :=
  StoppedFor v ∈ step_output w st.

Definition flags_unauthorized (w : W) (st : state W R) (v : string) : Prop :=
  UnauthorizedOnNetwork v ∈ step_output w st.
End History.

(** ** Concrete histories used as examples *)

Module Examples.
Import Toy.

(** One vehicle standing still, one driving. *)
Definition halted : world := [("veh0", 0%float); ("veh1", 13.5%float)].

(** The same network with [veh0] moving again. *)
Definition moving : world := [("veh0", 2%float); ("veh1", 13.5%float)].

(** The same network after [veh0] has left it. *)
Definition departed : world := [("veh1", 13.5%float)].

(** [veh0] creeping at half the stop tolerance (0.05, as binary64). *)
Definition creeping : world :=
  [("veh0", 0x1.999999999999ap-5%float); ("veh1", 13.5%float)].

(** An empty network. *)
Definition empty : world := [].

(** The program state at start, over the toy simulator. *)
Definition start_state : state world nat := initial empty O.
End Examples.

Section Streaks.
Context {W : Type} {api : TraCI W}.

(** Over the steps [ws] vehicle [v] is never seen at a speed of 0.1 or
    more: every step either lists it below 0.1 or does not list it. *)
Definition uninterrupted_streak (ws : list W) (v : string) : Prop :=
  Forall (fun w => forall s, observation w v = Some s -> stopped s = true) ws.

(** How often [v] has been seen up to and including step [i] of [ws]. *)
Definition seen_through (ws : list W) (i : nat) (v : string) : nat :=
  length (observations (take (S i) ws) v).
End Streaks.

(** ** Exceptions in a trace *)

(** Every exception in the trace was caught: it is a [TraCIException]
    answering an insertion request, and the error line of line 81 follows. *)
Inductive handled : list event -> Prop :=
| handled_nil : handled []
| handled_api c tr : handled tr -> handled (Api c :: tr)
| handled_print m tr : handled tr -> handled (Print m :: tr)
| handled_caught vehID routeID departPos departSpeed typeID desc tr :
    handled tr ->
    handled (Api (Add vehID routeID departPos departSpeed typeID)
               :: Raised (TraCIException desc)
               :: Print (CouldNotInject desc) :: tr).

(** The trace ends with the exception [e], which nothing caught. *)
Definition aborted (e : exn) (tr : list event) : Prop :=
  exists tr' : list event, tr = (tr' ++ [Raised e])%list /\ handled tr'.

(** A computation only extends the trace; when it returns, every exception
    in what it appended was caught by line 80; when it raises [e], that
    exception ends the trace. *)
Definition transparent {W R A} (m : M W R A) : Prop :=
  forall st r st',
    m st = (r, st') ->
    exists tr : list event,
      trace st' = (trace st ++ tr)%list
      /\ match r with
         | Ok _ => handled tr
         | Raise e => aborted e tr
         end.

(** The ID passed to [traci.vehicle.add] when the clock reads [now]. *)
Definition new_id (now : Z) : string :=
  (UNAUTHORIZED_VEHICLE_PREFIX ++ str_int now)%string.

(** The insertion request of line 78. *)
Definition add_request (now : Z) : api_call :=
  Add (new_id now) "route_0" "0" "max" "car".

Definition is_digit (a : ascii) : bool :=
  (48 <=? nat_of_ascii a)%nat && (nat_of_ascii a <=? 57)%nat.

Fixpoint all_digits (s : string) : bool :=
  match s with
  | EmptyString => true
  | String a s' => is_digit a && all_digits s'
  end.

(** ** What the loop may leave in the trace *)

(** Every event a computation appends satisfies [P], whatever its outcome. *)
Definition emits {W R A} (P : event -> Prop) (m : M W R A) : Prop :=
  forall st r st',
    m st = (r, st') ->
    exists tr : list event,
      trace st' = (trace st ++ tr)%list /\ Forall P tr.

(** An event of the loop: not the start request and neither of the two
    [INFO] lines of [run_simulation]. *)
Definition loop_event (e : event) : Prop :=
  match e with
  | Api (Start _) => False
  | Print InfoStarted => False
  | Print InfoFinished => False
  | _ => True
  end.

(** ** Counting detection steps instead of sightings *)

Section StepStreak.
Context {W : Type} {api : TraCI W}.

(** Number of leading steps of [ws] at which [v] is listed below 0.1. *)
Fixpoint leading_stopped_steps (v : string) (ws : list W) : nat :=
  match ws with
  | [] => O
  | w :: ws' =>
      if stopped_at v w then S (leading_stopped_steps v ws') else O
  end.

(** Number of consecutive most recent detection steps of the history [ws]
    (oldest first) at which [v] was seen with a speed below 0.1; a step
    that does not list [v] ends the count like a step that sees it at 0.1
    or more. *)
Definition trailing_stopped_steps (ws : list W) (v : string) : nat :=
  leading_stopped_steps v (rev ws).
End StepStreak.

(** ** The simulator states detection runs in *)

Section LoopWorlds.
Context {W R : Type} {api : TraCI W}.
Variable random_choice : R -> list string -> string * R.

(** The part of the loop body before detection (lines 39-47). *)
Definition before_detection (now : Z) (step : nat) : M W R unit :=
  simulationStep ;;
  (if (step =? 50)%nat
   then inject_sudden_stop_anomaly random_choice else ret tt) ;;
  (if (step =? 100)%nat then inject_unauthorized_vehicle now else ret tt).

(** The simulator states in which [detect_anomalies] is called during the
    loop steps [steps] run from [st], in order; the list ends where the run
    ends. *)
Fixpoint loop_worlds (now : Z) (steps : list nat) (st : state W R)
  : list W :=
  match steps with
  | [] => []
  | step :: steps' =>
      match before_detection now step st with
      | (Ok _, s1) =>
          sim s1
            :: match detect_anomalies s1 with
               | (Ok _, st') => loop_worlds now steps' st'
               | (Raise _, _) => []
               end
      | (Raise _, _) => []
      end
  end.

(** The same for a whole run of [run_simulation] from [st]. *)
Definition run_worlds (now : Z) (st : state W R) : list W :=
  match (start sumo_cmd ;; print InfoStarted) st with
  | (Ok _, s1) => loop_worlds now (range 300) s1
  | (Raise _, _) => []
  end.
End LoopWorlds.

(** * Properties *)

Local Open Scope list_scope.

(** ** Comparisons on binary64 numbers *)

Lemma compare_cont_antisym (p q : positive) (c : comparison) :
  Pos.compare_cont (CompOpp c) q p = CompOpp (Pos.compare_cont c p q).
Proof. symmetry. apply Pos.compare_cont_antisym. Qed.

Lemma SFcompare_antisym (x y : spec_float) :
  SFcompare y x = CompOpp <$> SFcompare x y.
Proof.
  destruct x as [sx|sx| |sx mx ex], y as [sy|sy| |sy my ey]; simpl;
    try reflexivity;
    try (destruct sx; reflexivity); try (destruct sy; reflexivity);
    try (destruct sx, sy; reflexivity).
  destruct sx, sy; simpl; try reflexivity; f_equal.
  - rewrite (Z.compare_antisym ex ey).
    destruct (ex ?= ey)%Z; simpl; try reflexivity.
    rewrite <- (compare_cont_antisym mx my Eq). reflexivity.
  - rewrite (Z.compare_antisym ex ey).
    destruct (ex ?= ey)%Z; simpl; try reflexivity.
    apply (compare_cont_antisym mx my Eq).
Qed.

(** A speed of at least 0.1 is not below 0.1. *)
Lemma at_least_tenth_not_stopped (s : float) :
  at_least_tenth s = true -> stopped s = false.
Proof.
  unfold at_least_tenth, stopped.
  rewrite leb_spec, ltb_spec. unfold SFleb, SFltb.
  rewrite (SFcompare_antisym (Prim2SF s) (Prim2SF tenth)).
  destruct (SFcompare (Prim2SF s) (Prim2SF tenth)) as [[]|]; simpl; congruence.
Qed.

(** ** Strings *)

Lemma prefix_app (p s : string) : String.prefix p (p ++ s)%string = true.
Proof.
  induction p as [|a p IH]; simpl.
  - destruct s; reflexivity.
  - destruct (Ascii.ascii_dec a a); [exact IH | congruence].
Qed.

Lemma all_digits_string_of_uint (d : Decimal.uint) :
  all_digits (NilEmpty.string_of_uint d) = true.
Proof. induction d; simpl; auto. Qed.

Lemma str_int_digits (n : Z) :
  (0 <= n)%Z -> all_digits (str_int n) = true /\ str_int n <> "".
Proof.
  intros Hn. unfold str_int.
  destruct n as [|p|p]; [| |lia]; simpl.
  - split; [reflexivity | discriminate].
  - assert (Hd : all_digits (NilEmpty.string_of_uint (Pos.to_uint p)) = true)
      by apply all_digits_string_of_uint.
    destruct (Pos.to_uint p) eqn:E; simpl in *;
      (split; [assumption | discriminate]).
Qed.

(** ** One pass over the ID list, as a function of the speeds *)

Lemma scan_lookup_notin (f : string -> float) (ids : list string) :
  forall (sc : gmap string Z) (v : string),
    v ∉ ids -> (scan f ids sc).1 !! v = sc !! v.
Proof.
  induction ids as [|x ids IH]; intros sc v Hv; simpl; [reflexivity|].
  apply not_elem_of_cons in Hv as [Hne Hv].
  rewrite IH by assumption. apply lookup_insert_ne. congruence.
Qed.

Lemma scan_lookup_in (f : string -> float) (ids : list string) :
  NoDup ids ->
  forall (sc : gmap string Z) (v : string),
    v ∈ ids -> (scan f ids sc).1 !! v = Some (next_counter (sc !! v) (f v)).
Proof.
  induction 1 as [|x ids Hx Hnd IH]; intros sc v Hv; simpl.
  - inversion Hv.
  - apply elem_of_cons in Hv as [->|Hv].
    + rewrite scan_lookup_notin by assumption. apply lookup_insert_eq.
    + rewrite IH by assumption.
      rewrite lookup_insert_ne; [reflexivity|]. intros ->. contradiction.
Qed.

Lemma scan_is_Some (f : string -> float) (ids : list string) :
  forall (sc : gmap string Z) (v : string),
    is_Some (sc !! v) -> is_Some ((scan f ids sc).1 !! v).
Proof.
  induction ids as [|x ids IH]; intros sc v Hv; simpl; [assumption|].
  apply IH. destruct (decide (x = v)) as [->|Hne].
  - rewrite lookup_insert_eq. eauto.
  - rewrite lookup_insert_ne by assumption. assumption.
Qed.

Lemma vehicle_messages_unauthorized (c : Z) (x v : string) (s : float) :
  UnauthorizedOnNetwork v ∈ vehicle_messages c x s <->
  x = v /\ startswith v UNAUTHORIZED_VEHICLE_PREFIX = true.
Proof.
  unfold vehicle_messages.
  destruct (stopped s && (c =? STOP_TIME_THRESHOLD)%Z);
    destruct (startswith x UNAUTHORIZED_VEHICLE_PREFIX) eqn:E; simpl;
    rewrite ?elem_of_cons, ?elem_of_nil; split;
    try (intros [?|[?|?]]); try (intros [?|?]); try (intros [-> ?]);
    try congruence; try contradiction; try discriminate;
    try (simplify_eq; tauto).
Qed.

Lemma vehicle_messages_stopped (c : Z) (x v : string) (s : float) :
  StoppedFor v ∈ vehicle_messages c x s <->
  x = v /\ stopped s = true /\ c = STOP_TIME_THRESHOLD.
Proof.
  unfold vehicle_messages.
  destruct (stopped s); simpl;
    destruct (Z.eqb_spec c STOP_TIME_THRESHOLD);
    destruct (startswith x UNAUTHORIZED_VEHICLE_PREFIX); simpl;
    rewrite ?elem_of_cons, ?elem_of_nil; split;
    try (intros [?|[?|?]]); try (intros [?|?]); try (intros (-> & ? & ?));
    try congruence; try contradiction; try discriminate;
    try (simplify_eq; tauto).
Qed.

Lemma elem_of_map_Print (m : message) (l : list message) :
  Print m ∈ map Print l <-> m ∈ l.
Proof.
  rewrite list_elem_of_fmap. split.
  - intros (m' & Heq & Hin). congruence.
  - intros Hin. eauto.
Qed.

Lemma scan_unauthorized (f : string -> float) (ids : list string) :
  forall (sc : gmap string Z) (v : string),
    Print (UnauthorizedOnNetwork v) ∈ (scan f ids sc).2 <->
    v ∈ ids /\ startswith v UNAUTHORIZED_VEHICLE_PREFIX = true.
Proof.
  induction ids as [|x ids IH]; intros sc v; simpl.
  - rewrite !elem_of_nil. tauto.
  - rewrite elem_of_cons, elem_of_app, elem_of_map_Print,
      vehicle_messages_unauthorized, IH, elem_of_cons.
    split.
    + intros [?|[[-> ?]|[? ?]]]; [discriminate|tauto|tauto].
    + intros [[->|?] ?]; tauto.
Qed.

Lemma scan_stopped (f : string -> float) (ids : list string) :
  NoDup ids ->
  forall (sc : gmap string Z) (v : string),
    Print (StoppedFor v) ∈ (scan f ids sc).2 <->
    v ∈ ids /\ stopped (f v) = true
    /\ next_counter (sc !! v) (f v) = STOP_TIME_THRESHOLD.
Proof.
  induction 1 as [|x ids Hx Hnd IH]; intros sc v; simpl.
  - rewrite !elem_of_nil. tauto.
  - rewrite elem_of_cons, elem_of_app, elem_of_map_Print,
      vehicle_messages_stopped, IH, elem_of_cons.
    split.
    + intros [?|[(-> & ? & ?)|(Hin & ? & Hc)]]; [discriminate|tauto|].
      rewrite lookup_insert_ne in Hc by (intros ->; contradiction). tauto.
    + intros ([->|Hin] & ? & Hc); [tauto|].
      right; right. rewrite lookup_insert_ne by (intros ->; contradiction).
      tauto.
Qed.

Lemma skeleton_app (l1 l2 : list event) :
  skeleton (l1 ++ l2) = (skeleton l1 ++ skeleton l2)%list.
Proof. apply omap_app. Qed.

Lemma skeleton_map_Print (l : list message) : skeleton (map Print l) = [].
Proof. induction l; simpl; auto. Qed.

Lemma scan_skeleton (f : string -> float) (ids : list string) :
  forall sc : gmap string Z, skeleton (scan f ids sc).2 = [].
Proof.
  induction ids as [|x ids IH]; intros sc; simpl; [reflexivity|].
  change (skeleton (map Print (vehicle_messages
            (next_counter (sc !! x) (f x)) x (f x))
          ++ (scan f ids (<[x:=next_counter (sc !! x) (f x)]> sc)).2) = []).
  rewrite skeleton_app, skeleton_map_Print, IH. reflexivity.
Qed.

(** ** The routines in closed form *)

Section Routines.
Context {W R : Type} {api : TraCI W}.
Variable random_choice : R -> list string -> string * R.

Lemma detect_vehicle_eq (vid : string) (st : state W R) :
  detect_vehicle vid st =
  match traci_vehicle_getSpeed (sim st) vid with
  | Ok s =>
      let c := next_counter (stop_counters st !! vid) s in
      (Ok tt,
       mkState (sim st) (rng st) (<[vid := c]> (stop_counters st))
         (trace st ++ Api (GetSpeed vid) :: map Print (vehicle_messages c vid s)))
  | Raise e =>
      (Raise e,
       mkState (sim st) (rng st) (stop_counters st)
         (trace st ++ [Api (GetSpeed vid); Raised e]))
  end.
Proof.
  unfold detect_vehicle, vehicle_getSpeed, stop_counters_get,
    stop_counters_setitem, stop_counters_getitem, get_stop_counters,
    put_stop_counters, print, bind, emit, lift_query, ret, raise.
  simpl. destruct (traci_vehicle_getSpeed (sim st) vid) as [s|e]; simpl;
    [|rewrite <- app_assoc; reflexivity].
  unfold next_counter, vehicle_messages.
  destruct (stopped s); simpl.
  - rewrite lookup_insert_eq.
    destruct (default 0 (stop_counters st !! vid) + 1 =? STOP_TIME_THRESHOLD)%Z;
      simpl; destruct (startswith vid UNAUTHORIZED_VEHICLE_PREFIX); simpl;
      rewrite <- ?app_assoc; reflexivity.
  - destruct (startswith vid UNAUTHORIZED_VEHICLE_PREFIX); simpl;
      rewrite <- ?app_assoc; reflexivity.
Qed.

Lemma for_each_detect_scan (f : string -> float) (ids : list string) :
  forall st : state W R,
    (forall v, v ∈ ids -> traci_vehicle_getSpeed (sim st) v = Ok (f v)) ->
    for_each ids detect_vehicle st =
    (Ok tt,
     mkState (sim st) (rng st) (scan f ids (stop_counters st)).1
       (trace st ++ (scan f ids (stop_counters st)).2)).
Proof.
  induction ids as [|x ids IH]; intros st Hok; simpl.
  - unfold ret. rewrite app_nil_r. destruct st; reflexivity.
  - unfold bind. rewrite detect_vehicle_eq.
    rewrite (Hok x) by left. simpl.
    rewrite IH; simpl.
    + rewrite <- app_assoc. reflexivity.
    + intros v Hv. apply Hok. right. assumption.
Qed.

Lemma for_each_detect_ok (ids : list string) :
  forall st : state W R,
    (forall v, v ∈ ids -> exists s, traci_vehicle_getSpeed (sim st) v = Ok s) ->
    for_each ids detect_vehicle st =
    (Ok tt,
     mkState (sim st) (rng st)
       (scan (speed_or_zero (sim st)) ids (stop_counters st)).1
       (trace st ++ (scan (speed_or_zero (sim st)) ids (stop_counters st)).2)).
Proof.
  intros st Hok. apply for_each_detect_scan.
  intros v Hv. destruct (Hok v Hv) as [s Hs].
  unfold speed_or_zero. rewrite Hs. reflexivity.
Qed.

Lemma for_each_detect_inv (ids : list string) :
  forall st st' : state W R,
    for_each ids detect_vehicle st = (Ok tt, st') ->
    forall v, v ∈ ids -> exists s, traci_vehicle_getSpeed (sim st) v = Ok s.
Proof.
  induction ids as [|x ids IH]; intros st st' Hrun v Hv.
  - inversion Hv.
  - simpl in Hrun. unfold bind in Hrun. rewrite detect_vehicle_eq in Hrun.
    destruct (traci_vehicle_getSpeed (sim st) x) as [s|e] eqn:Hs;
      [|discriminate].
    apply elem_of_cons in Hv as [->|Hv]; [eauto|].
    simpl in Hrun. apply (IH _ _ Hrun v Hv).
Qed.

Lemma vehicle_getIDList_eq (st : state W R) :
  vehicle_getIDList st =
  match traci_vehicle_getIDList (sim st) with
  | Ok ids =>
      (Ok ids,
       mkState (sim st) (rng st) (stop_counters st)
         (trace st ++ [Api GetIDList]))
  | Raise e =>
      (Raise e,
       mkState (sim st) (rng st) (stop_counters st)
         (trace st ++ [Api GetIDList; Raised e]))
  end.
Proof.
  unfold vehicle_getIDList, bind, emit, lift_query, raise. simpl.
  destruct (traci_vehicle_getIDList (sim st)); simpl;
    rewrite <- ?app_assoc; reflexivity.
Qed.

(** A successful call of [detect_anomalies] in closed form. *)
Lemma detect_anomalies_ok (st st' : state W R) :
  detect_anomalies st = (Ok tt, st') ->
  exists ids,
    traci_vehicle_getIDList (sim st) = Ok ids
    /\ (forall v, v ∈ ids -> exists s, traci_vehicle_getSpeed (sim st) v = Ok s)
    /\ st' =
       mkState (sim st) (rng st)
         (scan (speed_or_zero (sim st)) ids (stop_counters st)).1
         (trace st ++ Api GetIDList
            :: (scan (speed_or_zero (sim st)) ids (stop_counters st)).2).
Proof.
  unfold detect_anomalies, bind. rewrite vehicle_getIDList_eq.
  destruct (traci_vehicle_getIDList (sim st)) as [ids|e]; [|discriminate].
  intros Hrun. exists ids. split; [reflexivity|].
  pose proof (for_each_detect_inv _ _ _ Hrun) as Hok. simpl in Hok.
  split; [exact Hok|].
  rewrite for_each_detect_ok in Hrun by exact Hok. simpl in Hrun.
  rewrite <- app_assoc in Hrun. simpl in Hrun. congruence.
Qed.

(** Whatever its outcome, detection leaves the simulation and the random
    generator alone and only extends the trace. *)
Lemma for_each_detect_frame (ids : list string) :
  forall (st st' : state W R) (r : outcome unit),
    for_each ids detect_vehicle st = (r, st') ->
    sim st' = sim st /\ rng st' = rng st
    /\ exists tr, trace st' = trace st ++ tr.
Proof.
  induction ids as [|x ids IH]; intros st st' r Hrun; simpl in Hrun.
  - inversion Hrun; subst. repeat split. exists []. by rewrite app_nil_r.
  - unfold bind in Hrun. rewrite detect_vehicle_eq in Hrun.
    destruct (traci_vehicle_getSpeed (sim st) x) as [s|e]; simpl in Hrun.
    + apply IH in Hrun as (Hs & Hr & tr & Ht). simpl in *.
      repeat split; try assumption.
      eexists. rewrite Ht, <- app_assoc. reflexivity.
    + inversion Hrun; subst; simpl. repeat split. eauto.
Qed.

Lemma detect_anomalies_frame (st st' : state W R) (r : outcome unit) :
  detect_anomalies st = (r, st') ->
  sim st' = sim st /\ rng st' = rng st
  /\ exists tr, trace st' = trace st ++ tr.
Proof.
  unfold detect_anomalies, bind. rewrite vehicle_getIDList_eq.
  destruct (traci_vehicle_getIDList (sim st)) as [ids|e]; intros Hrun.
  - apply for_each_detect_frame in Hrun as (Hs & Hr & tr & Ht). simpl in *.
    repeat split; try assumption.
    eexists. rewrite Ht, <- app_assoc. reflexivity.
  - inversion Hrun; subst; simpl. repeat split. eauto.
Qed.

Lemma new_events_app (st st' : state W R) (tr : list event) :
  trace st' = trace st ++ tr -> new_events st st' = tr.
Proof. intros H. unfold new_events. rewrite H. apply drop_app_length. Qed.

End Routines.

(** ** One detection step, vehicle by vehicle *)

Lemma elem_of_printed (m : message) (tr : list event) :
  m ∈ printed tr <-> Print m ∈ tr.
Proof.
  unfold printed. rewrite list_elem_of_omap. split.
  - intros (e & He & Hm). destruct e; simplify_eq. assumption.
  - intros H. exists (Print m). auto.
Qed.

Section Steps.
Context {W R : Type} {api : TraCI W}.
Implicit Types (w : W) (st : state W R) (v : string).

Lemma detection_step_ok w st st' :
  detection_step w st = (Ok tt, st') ->
  exists ids,
    traci_vehicle_getIDList w = Ok ids
    /\ (forall v, v ∈ ids -> exists s, traci_vehicle_getSpeed w v = Ok s)
    /\ st' =
       mkState w (rng st) (scan (speed_or_zero w) ids (stop_counters st)).1
         (trace st ++ Api GetIDList
            :: (scan (speed_or_zero w) ids (stop_counters st)).2).
Proof. intros H. apply detect_anomalies_ok in H. exact H. Qed.

Lemma observation_in w v ids s :
  traci_vehicle_getIDList w = Ok ids -> v ∈ ids ->
  traci_vehicle_getSpeed w v = Ok s ->
  observation w v = Some s /\ speed_or_zero w v = s.
Proof.
  intros Hids Hin Hs. unfold observation, speed_or_zero.
  rewrite Hids, Hs, bool_decide_eq_true_2 by assumption. auto.
Qed.

Lemma observation_notin w v ids :
  traci_vehicle_getIDList w = Ok ids -> v ∉ ids -> observation w v = None.
Proof.
  intros Hids Hin. unfold observation.
  rewrite Hids, bool_decide_eq_false_2 by assumption. reflexivity.
Qed.

Lemma observation_Some w v s :
  observation w v = Some s ->
  exists ids, traci_vehicle_getIDList w = Ok ids /\ v ∈ ids
              /\ traci_vehicle_getSpeed w v = Ok s.
Proof.
  unfold observation.
  destruct (traci_vehicle_getIDList w) as [ids|]; [|discriminate].
  destruct (bool_decide_reflect (v ∈ ids)); [|discriminate].
  destruct (traci_vehicle_getSpeed w v); [|discriminate].
  intros [= ->]. eauto.
Qed.

Lemma step_output_ok w st st' ids :
  detection_step w st = (Ok tt, st') ->
  traci_vehicle_getIDList w = Ok ids ->
  step_output w st =
  printed (scan (speed_or_zero w) ids (stop_counters st)).2.
Proof.
  intros Hrun Hids. unfold step_output. rewrite Hrun. simpl.
  apply detection_step_ok in Hrun as (ids' & Hids' & _ & ->).
  assert (ids' = ids) as -> by congruence.
  erewrite new_events_app; [|reflexivity]. reflexivity.
Qed.

(** The counter of [v] after a step: advanced by the observation when [v]
    is listed, untouched otherwise. *)
Lemma detection_step_counter w st st' v :
  distinct_ids w ->
  detection_step w st = (Ok tt, st') ->
  stop_counters st' !! v =
  match observation w v with
  | Some s => Some (next_counter (stop_counters st !! v) s)
  | None => stop_counters st !! v
  end.
Proof.
  intros Hnd Hrun.
  apply detection_step_ok in Hrun as (ids & Hids & Hok & ->). simpl.
  destruct (decide (v ∈ ids)) as [Hin|Hin].
  - destruct (Hok v Hin) as [s Hs].
    destruct (observation_in _ _ _ _ Hids Hin Hs) as [-> <-].
    apply scan_lookup_in; auto.
  - rewrite (observation_notin _ _ _ Hids Hin).
    apply scan_lookup_notin. assumption.
Qed.

(** The stop anomaly is printed for [v] exactly when [v] is listed with a
    speed below 0.1 and its counter becomes equal to the threshold. *)
Lemma detection_step_flag w st st' v :
  distinct_ids w ->
  detection_step w st = (Ok tt, st') ->
  flags_stop w st v <->
  exists s, observation w v = Some s /\ stopped s = true
            /\ next_counter (stop_counters st !! v) s = STOP_TIME_THRESHOLD.
Proof.
  intros Hnd Hrun. unfold flags_stop.
  destruct (detection_step_ok _ _ _ Hrun) as (ids & Hids & Hok & _).
  rewrite (step_output_ok _ _ _ _ Hrun Hids), elem_of_printed,
    scan_stopped by auto.
  split.
  - intros (Hin & Hst & Hc). destruct (Hok v Hin) as [s Hs].
    destruct (observation_in _ _ _ _ Hids Hin Hs) as [Ho Hsz].
    exists s. rewrite Hsz in Hst, Hc. auto.
  - intros (s & Ho & Hst & Hc).
    apply observation_Some in Ho as (ids' & Hids' & Hin & Hs).
    assert (ids' = ids) as -> by congruence.
    destruct (observation_in _ _ _ _ Hids Hin Hs) as [_ ->]. auto.
Qed.

Lemma detection_step_unauthorized w st st' v :
  detection_step w st = (Ok tt, st') ->
  flags_unauthorized w st v <->
  exists ids, traci_vehicle_getIDList w = Ok ids /\ v ∈ ids
              /\ startswith v UNAUTHORIZED_VEHICLE_PREFIX = true.
Proof.
  intros Hrun. unfold flags_unauthorized.
  destruct (detection_step_ok _ _ _ Hrun) as (ids & Hids & Hok & _).
  rewrite (step_output_ok _ _ _ _ Hrun Hids), elem_of_printed,
    scan_unauthorized.
  split.
  - intros [? ?]. eauto.
  - intros (ids' & Hids' & ? & ?).
    assert (ids' = ids) as -> by congruence. auto.
Qed.

End Steps.

(** ** Counters and streaks *)

Lemma counter_after_snoc (c : option Z) (obs : list float) (s : float) :
  counter_after c (obs ++ [s]) = Some (next_counter (counter_after c obs) s).
Proof. unfold counter_after. rewrite foldl_app. reflexivity. Qed.

Lemma trailing_streak_snoc (obs : list float) (s : float) :
  trailing_streak (obs ++ [s]) =
  if stopped s then S (trailing_streak obs) else O.
Proof. unfold trailing_streak. rewrite rev_app_distr. reflexivity. Qed.

Lemma counter_after_streak (obs : list float) :
  default 0 (counter_after None obs) = Z.of_nat (trailing_streak obs).
Proof.
  induction obs as [|s obs IH] using rev_ind; [reflexivity|].
  rewrite counter_after_snoc, trailing_streak_snoc. simpl.
  unfold next_counter. destruct (stopped s); [|reflexivity].
  rewrite IH. lia.
Qed.

Lemma counter_after_None (obs : list float) :
  counter_after None obs = None <-> obs = [].
Proof.
  destruct obs as [|s obs] using rev_ind; [tauto|].
  rewrite counter_after_snoc. split; [discriminate|].
  intros H. destruct obs; discriminate.
Qed.

(** Along observations that are all below 0.1 the counter grows by one per
    observation. *)
Lemma counter_after_all_stopped (c : option Z) (obs : list float) :
  Forall (fun s => stopped s = true) obs ->
  default 0 (counter_after c obs) = default 0 c + Z.of_nat (length obs).
Proof.
  induction obs as [|s obs IH] using rev_ind; intros Hall; simpl; [lia|].
  apply Forall_app in Hall as [Hall Hs]. inversion Hs as [|? ? Hst _]; subst.
  rewrite counter_after_snoc, length_app. simpl.
  unfold next_counter. rewrite Hst, IH by assumption. lia.
Qed.

Lemma trailing_streak_bound (obs : list float) :
  (trailing_streak obs <= length obs)%nat.
Proof.
  unfold trailing_streak. rewrite <- (length_rev obs).
  induction (rev obs) as [|s l IH]; simpl; [lia|].
  destruct (stopped s); lia.
Qed.

(** The [n] most recent observations are all below 0.1 when the trailing
    streak has length [n]. *)
Lemma trailing_streak_suffix (obs : list float) :
  exists older,
    obs = older ++ drop (length obs - trailing_streak obs) obs
    /\ length (drop (length obs - trailing_streak obs) obs)
       = trailing_streak obs
    /\ Forall (fun s => stopped s = true)
         (drop (length obs - trailing_streak obs) obs).
Proof.
  exists (take (length obs - trailing_streak obs) obs).
  split; [symmetry; apply take_drop|].
  pose proof (trailing_streak_bound obs) as Hb.
  split; [rewrite length_drop; lia|].
  clear Hb. induction obs as [|s obs IH] using rev_ind; [constructor|].
  rewrite trailing_streak_snoc, length_app. simpl.
  destruct (stopped s) eqn:Hs.
  - pose proof (trailing_streak_bound obs) as Hb.
    replace (length obs + 1 - S (trailing_streak obs))%nat
      with (length obs - trailing_streak obs)%nat by lia.
    rewrite drop_app_le by lia.
    apply Forall_app. split; [exact IH|]. constructor; [exact Hs|constructor].
  - replace (length obs + 1 - 0)%nat with (length (obs ++ [s]))
      by (rewrite length_app; simpl; lia).
    rewrite drop_all. constructor.
Qed.

(** ** Histories of detection steps *)

Section Histories.
Context {W R : Type} {api : TraCI W}.
Implicit Types (w : W) (ws : list W) (st : state W R) (v : string).

Lemma detection_steps_app ws1 ws2 st :
  detection_steps (ws1 ++ ws2) st =
  match detection_steps ws1 st with
  | (Ok _, st1) => detection_steps ws2 st1
  | (Raise e, st1) => (Raise e, st1)
  end.
Proof.
  revert st. induction ws1 as [|w ws1 IH]; intros st; simpl; [reflexivity|].
  destruct (detection_step w st) as [[[]|e] st1]; [apply IH|reflexivity].
Qed.

Lemma detection_steps_split ws1 ws2 st st' :
  detection_steps (ws1 ++ ws2) st = (Ok tt, st') ->
  detection_steps ws1 st = (Ok tt, state_after ws1 st)
  /\ detection_steps ws2 (state_after ws1 st) = (Ok tt, st').
Proof.
  rewrite detection_steps_app. unfold state_after.
  destruct (detection_steps ws1 st) as [[[]|e] st1]; simpl; [auto|discriminate].
Qed.

Lemma detection_steps_snoc ws w st st' :
  detection_steps (ws ++ [w]) st = (Ok tt, st') ->
  detection_steps ws st = (Ok tt, state_after ws st)
  /\ detection_step w (state_after ws st) = (Ok tt, st').
Proof.
  intros H. apply detection_steps_split in H as [H1 H2]. split; [exact H1|].
  simpl in H2.
  destruct (detection_step w (state_after ws st)) as [[[]|e] st1];
    [exact H2|discriminate].
Qed.

Lemma observations_snoc ws w v :
  observations (ws ++ [w]) v =
  observations ws v ++ match observation w v with Some s => [s] | None => [] end.
Proof.
  unfold observations. rewrite omap_app. simpl.
  destruct (observation w v); reflexivity.
Qed.

(** After a history the counter of [v] is the one its observations give. *)
Lemma detection_steps_counter ws st st' v :
  Forall distinct_ids ws ->
  detection_steps ws st = (Ok tt, st') ->
  stop_counters st' !! v =
  counter_after (stop_counters st !! v) (observations ws v).
Proof.
  revert st'. induction ws as [|w ws IH] using rev_ind; intros st' Hnd Hrun.
  - simpl in Hrun. inversion Hrun; subst. reflexivity.
  - apply Forall_app in Hnd as [Hnd Hw]. inversion Hw as [|? ? Hdw _]; subst.
    apply detection_steps_snoc in Hrun as [Hpre Hstep].
    rewrite (detection_step_counter _ _ _ v Hdw Hstep), observations_snoc.
    rewrite (IH _ Hnd Hpre).
    destruct (observation w v) as [s|].
    + rewrite counter_after_snoc. reflexivity.
    + rewrite app_nil_r. reflexivity.
Qed.

End Histories.

(** ** The toy simulator *)

Lemma toy_distinct_ids (w : Toy.world) :
  NoDup (map fst w) -> distinct_ids w.
Proof. intros Hnd ids [= <-]. exact Hnd. Qed.

Lemma toy_distinct_examples :
  distinct_ids Examples.halted /\ distinct_ids Examples.moving
  /\ distinct_ids Examples.departed /\ distinct_ids Examples.creeping
  /\ distinct_ids Examples.empty.
Proof.
  repeat split; apply toy_distinct_ids;
    apply (bool_decide_unpack _); vm_compute; exact I.
Qed.

(** * The stop anomaly *)

Section StopAnomaly.
Context {W R : Type} {api : TraCI W}.
Implicit Types (w : W) (ws : list W) (st : state W R) (v : string).

(** The flag of a step, read off the history before it: the vehicle is
    listed below 0.1 and was seen below 0.1 exactly four times in a row just
    before. *)
Lemma flag_after_history ws w v (w0 : W) (r0 : R) st' :
  Forall distinct_ids (ws ++ [w]) ->
  detection_steps (ws ++ [w]) (initial w0 r0) = (Ok tt, st') ->
  flags_stop w (state_after ws (initial w0 r0)) v <->
  exists s,
    observation w v = Some s /\ stopped s = true
    /\ Z.of_nat (trailing_streak (observations ws v)) + 1
       = STOP_TIME_THRESHOLD.
Proof.
  intros Hnd Hrun.
  apply Forall_app in Hnd as [Hnd Hw]. inversion Hw as [|? ? Hdw _]; subst.
  apply detection_steps_snoc in Hrun as [Hpre Hstep].
  rewrite (detection_step_flag _ _ _ v Hdw Hstep).
  rewrite (detection_steps_counter _ _ _ v Hnd Hpre). simpl.
  rewrite lookup_empty.
  pose proof (counter_after_streak (observations ws v)) as Hc.
  split; intros (s & Ho & Hs & Hn); exists s;
    (split; [exact Ho|]); (split; [exact Hs|]);
    unfold next_counter in *; rewrite Hs in *; lia.
Qed.

End StopAnomaly.

(** C1 (amended): from program start, the stop anomaly is printed for a
    vehicle at a detection step if and only if the vehicle is listed at that
    step and the run of its most recent observations with speed below 0.1
    (only the steps at which it is listed count) has length exactly
    STOP_TIME_THRESHOLD = 5. *)
Theorem stop_flag_iff_streak_is_threshold
    {W R : Type} {api : TraCI W}
    (ws : list W) (w : W) (v : string) (w0 : W) (r0 : R) (st' : state W R) :
  Forall distinct_ids (ws ++ [w]) ->
  detection_steps (ws ++ [w]) (initial w0 r0) = (Ok tt, st') ->
  flags_stop w (state_after ws (initial w0 r0)) v <->
  is_Some (observation w v)
  /\ Z.of_nat (trailing_streak (observations (ws ++ [w]) v))
     = STOP_TIME_THRESHOLD.
Proof.
  intros Hnd Hrun.
  rewrite (flag_after_history ws w v w0 r0 st' Hnd Hrun).
  rewrite observations_snoc. unfold STOP_TIME_THRESHOLD.
  split.
  - intros (s & Ho & Hs & Hn). rewrite Ho. split; [eauto|].
    rewrite trailing_streak_snoc, Hs. lia.
  - intros [[s Ho] Hn]. rewrite Ho in Hn. exists s.
    rewrite trailing_streak_snoc in Hn.
    destruct (stopped s); [|simpl in Hn; lia].
    repeat split; [exact Ho|lia].
Qed.

Lemma stop_flag_iff_streak_is_threshold_witness :
  let ws := replicate 4 Examples.halted in
  let w := Examples.halted in
  Forall distinct_ids (ws ++ [w])
  /\ detection_steps (ws ++ [w]) Examples.start_state
     = (Ok tt, state_after (ws ++ [w]) Examples.start_state)
  /\ (flags_stop w (state_after ws Examples.start_state) "veh0" <->
      is_Some (observation w "veh0")
      /\ Z.of_nat (trailing_streak (observations (ws ++ [w]) "veh0"))
         = STOP_TIME_THRESHOLD).
Proof.
  intros ws w.
  assert (Hnd : Forall distinct_ids (ws ++ [w]))
    by (repeat constructor; apply toy_distinct_examples).
  assert (Hrun : detection_steps (ws ++ [w]) Examples.start_state
                 = (Ok tt, state_after (ws ++ [w]) Examples.start_state))
    by (vm_compute; reflexivity).
  split; [exact Hnd|]. split; [exact Hrun|].
  exact (stop_flag_iff_streak_is_threshold ws w "veh0"
           Examples.empty O _ Hnd Hrun).
Defined.

(** C1 as stated fails: after six consecutive steps below 0.1 the last five
    steps are all below 0.1, yet the sixth step prints no stop anomaly (the
    counter is 6, not 5). *)
Lemma stop_flag_absent_on_sixth_stopped_step :
  let ws := replicate 5 Examples.halted in
  let w := Examples.halted in
  (detection_steps (ws ++ [w]) Examples.start_state).1 = Ok tt
  /\ ~ (flags_stop w (state_after ws Examples.start_state) "veh0" <->
        stopped_for_last 5 (ws ++ [w]) "veh0" = true).
Proof.
  intros ws w. split; [vm_compute; reflexivity|].
  intros [_ H].
  assert (Hf : flags_stop w (state_after ws Examples.start_state) "veh0")
    by (apply H; vm_compute; reflexivity).
  unfold flags_stop in Hf. apply list_elem_of_In in Hf.
  vm_compute in Hf. exact Hf.
Qed.

(** C4 (amended): the stop anomaly is printed for a vehicle only if its five
    most recent observations all had a speed below 0.1 (the tolerance of
    line 95), not necessarily a speed of exactly zero. *)
Theorem stop_flag_only_after_speeds_below_tenth
    {W R : Type} {api : TraCI W}
    (ws : list W) (w : W) (v : string) (w0 : W) (r0 : R) (st' : state W R) :
  Forall distinct_ids (ws ++ [w]) ->
  detection_steps (ws ++ [w]) (initial w0 r0) = (Ok tt, st') ->
  flags_stop w (state_after ws (initial w0 r0)) v ->
  exists older recent,
    observations (ws ++ [w]) v = older ++ recent
    /\ Z.of_nat (length recent) = STOP_TIME_THRESHOLD
    /\ Forall (fun s => stopped s = true) recent.
Proof.
  intros Hnd Hrun Hflag.
  apply (flag_after_history ws w v w0 r0 st' Hnd Hrun) in Hflag
    as (s & Ho & Hs & Hn).
  destruct (trailing_streak_suffix (observations (ws ++ [w]) v))
    as (older & Heq & Hlen & Hall).
  eexists older, _. split; [exact Heq|].
  split; [|exact Hall].
  rewrite Hlen, observations_snoc, Ho, trailing_streak_snoc, Hs.
  unfold STOP_TIME_THRESHOLD in *. lia.
Qed.

Lemma stop_flag_only_after_speeds_below_tenth_witness :
  let ws := replicate 4 Examples.creeping in
  let w := Examples.creeping in
  Forall distinct_ids (ws ++ [w])
  /\ detection_steps (ws ++ [w]) Examples.start_state
     = (Ok tt, state_after (ws ++ [w]) Examples.start_state)
  /\ flags_stop w (state_after ws Examples.start_state) "veh0"
  /\ exists older recent,
       observations (ws ++ [w]) "veh0" = older ++ recent
       /\ Z.of_nat (length recent) = STOP_TIME_THRESHOLD
       /\ Forall (fun s => stopped s = true) recent.
Proof.
  intros ws w.
  assert (Hnd : Forall distinct_ids (ws ++ [w]))
    by (repeat constructor; apply toy_distinct_examples).
  assert (Hrun : detection_steps (ws ++ [w]) Examples.start_state
                 = (Ok tt, state_after (ws ++ [w]) Examples.start_state))
    by (vm_compute; reflexivity).
  assert (Hflag : flags_stop w (state_after ws Examples.start_state) "veh0")
    by (apply list_elem_of_In; vm_compute; auto).
  split; [exact Hnd|]. split; [exact Hrun|]. split; [exact Hflag|].
  exact (stop_flag_only_after_speeds_below_tenth ws w "veh0"
           Examples.empty O _ Hnd Hrun Hflag).
Defined.

(** C4 as stated fails: a vehicle creeping at 0.05 for five steps is
    flagged although its speed was never zero. *)
Lemma stop_flag_raised_for_creeping_vehicle :
  let ws := replicate 4 Examples.creeping in
  let w := Examples.creeping in
  (detection_steps (ws ++ [w]) Examples.start_state).1 = Ok tt
  /\ ~ (flags_stop w (state_after ws Examples.start_state) "veh0" ->
        forallb (zero_at "veh0") (ws ++ [w]) = true).
Proof.
  intros ws w. split; [vm_compute; reflexivity|].
  intros H.
  assert (Hflag : flags_stop w (state_after ws Examples.start_state) "veh0")
    by (apply list_elem_of_In; vm_compute; auto).
  apply H in Hflag. vm_compute in Hflag. discriminate.
Qed.

(** C6 (amended): a call of [detect_anomalies] changes nothing but
    [stop_counters] (and the output); after any number of calls from program
    start every stored counter is non-negative and equals the number of
    consecutive most recent observations of its vehicle with speed below
    0.1, where only the detection steps that list the vehicle are
    observations; hence it is 0 when the vehicle was last seen with a speed
    of at least 0.1. *)
Theorem stop_counters_count_trailing_streak
    {W R : Type} {api : TraCI W}
    (ws : list W) (w0 : W) (r0 : R) (st : state W R) (v : string) (c : Z) :
  Forall distinct_ids ws ->
  detection_steps ws (initial w0 r0) = (Ok tt, st) ->
  stop_counters st !! v = Some c ->
  (forall (st1 st2 : state W R) (r : outcome unit),
      detect_anomalies st1 = (r, st2) ->
      sim st2 = sim st1 /\ rng st2 = rng st1)
  /\ 0 <= c
  /\ c = Z.of_nat (trailing_streak (observations ws v))
  /\ (forall s, last (observations ws v) = Some s ->
                at_least_tenth s = true -> c = 0).
Proof.
  intros Hnd Hrun Hc.
  split.
  { intros st1 st2 r H. apply detect_anomalies_frame in H. tauto. }
  rewrite (detection_steps_counter _ _ _ v Hnd Hrun) in Hc. simpl in Hc.
  rewrite lookup_empty in Hc.
  pose proof (counter_after_streak (observations ws v)) as Hs.
  rewrite Hc in Hs. simpl in Hs.
  split; [lia|]. split; [exact Hs|].
  intros s Hlast Hge. rewrite Hs.
  apply last_Some in Hlast as [obs' ->].
  rewrite trailing_streak_snoc.
  rewrite (at_least_tenth_not_stopped s Hge). reflexivity.
Qed.

Lemma stop_counters_count_trailing_streak_witness :
  let ws := [Examples.moving; Examples.halted; Examples.halted] in
  Forall distinct_ids ws
  /\ detection_steps ws Examples.start_state
     = (Ok tt, state_after ws Examples.start_state)
  /\ stop_counters (state_after ws Examples.start_state) !! "veh0" = Some 2
  /\ 0 <= 2
  /\ 2 = Z.of_nat (trailing_streak (observations ws "veh0")).
Proof.
  intros ws.
  assert (Hnd : Forall distinct_ids ws)
    by (repeat constructor; apply toy_distinct_examples).
  assert (Hrun : detection_steps ws Examples.start_state
                 = (Ok tt, state_after ws Examples.start_state))
    by (vm_compute; reflexivity).
  assert (Hc : stop_counters (state_after ws Examples.start_state) !! "veh0"
               = Some 2) by (vm_compute; reflexivity).
  split; [exact Hnd|]. split; [exact Hrun|]. split; [exact Hc|].
  destruct (stop_counters_count_trailing_streak ws Examples.empty O _
              "veh0" 2 Hnd Hrun Hc) as (_ & Hpos & Heq & _).
  split; [exact Hpos | exact Heq].
Defined.

(** C6 as stated fails: counted in detection steps, a vehicle that was seen
    below 0.1 twice and is missing from the ID list at the latest step has
    no most recent step below 0.1, yet its stored counter is still 2. *)
Lemma counter_kept_while_vehicle_unlisted :
  let ws := [Examples.halted; Examples.halted; Examples.departed] in
  (detection_steps ws Examples.start_state).1 = Ok tt
  /\ ~ (forall c,
         stop_counters (state_after ws Examples.start_state) !! "veh0"
           = Some c ->
         c = Z.of_nat (trailing_stopped_steps ws "veh0")).
Proof.
  intros ws. split; [vm_compute; reflexivity|].
  intros H. specialize (H 2 ltac:(vm_compute; reflexivity)).
  vm_compute in H. discriminate.
Qed.

(** * The unauthorized-vehicle anomaly *)

(** C2: at every detection step a listed vehicle is reported as
    unauthorized if and only if its ID starts with "unauth", and nothing
    but a listed vehicle with such an ID is ever reported. *)
Theorem unauthorized_flag_iff_prefix
    {W R : Type} {api : TraCI W}
    (w : W) (st st' : state W R) (ids : list string) :
  detection_step w st = (Ok tt, st') ->
  traci_vehicle_getIDList w = Ok ids ->
  (forall v, v ∈ ids ->
     (flags_unauthorized w st v <->
      startswith v UNAUTHORIZED_VEHICLE_PREFIX = true))
  /\ (forall v, flags_unauthorized w st v ->
        v ∈ ids /\ startswith v UNAUTHORIZED_VEHICLE_PREFIX = true).
Proof.
  intros Hrun Hids. split.
  - intros v Hin. rewrite (detection_step_unauthorized _ _ _ v Hrun).
    split.
    + intros (ids' & _ & _ & H). exact H.
    + intros H. exists ids. auto.
  - intros v Hflag.
    apply (detection_step_unauthorized _ _ _ v Hrun) in Hflag
      as (ids' & Hids' & Hin & H).
    assert (ids' = ids) as -> by congruence. auto.
Qed.

Lemma unauthorized_flag_iff_prefix_witness :
  let w : Toy.world := [("veh0", 0%float); ("unauth17", 9%float)] in
  let st := Examples.start_state in
  detection_step w st = (Ok tt, (detection_step w st).2)
  /\ traci_vehicle_getIDList w = Ok ["veh0"; "unauth17"]
  /\ (flags_unauthorized w st "unauth17" <->
      startswith "unauth17" UNAUTHORIZED_VEHICLE_PREFIX = true)
  /\ (flags_unauthorized w st "veh0" <->
      startswith "veh0" UNAUTHORIZED_VEHICLE_PREFIX = true).
Proof.
  intros w st.
  assert (Hrun : detection_step w st = (Ok tt, (detection_step w st).2))
    by (vm_compute; reflexivity).
  assert (Hids : traci_vehicle_getIDList w = Ok ["veh0"; "unauth17"])
    by reflexivity.
  split; [exact Hrun|]. split; [exact Hids|].
  destruct (unauthorized_flag_iff_prefix w st _ _ Hrun Hids) as [H _].
  split; apply H; apply list_elem_of_In; simpl; auto.
Defined.

(** * The counter map as a frame *)

(** C9: a detection step never removes an entry of [stop_counters] and
    leaves the counter of every vehicle outside the ID list unchanged;
    hence when a vehicle is missing from the list for some steps and is
    then listed again with a speed below 0.1, its counter goes on from the
    stored value. *)
Theorem absent_vehicle_counter_kept
    {W R : Type} {api : TraCI W}
    (w : W) (st st' : state W R) (ids : list string) :
  detection_step w st = (Ok tt, st') ->
  traci_vehicle_getIDList w = Ok ids ->
  (forall v, is_Some (stop_counters st !! v) ->
             is_Some (stop_counters st' !! v))
  /\ (forall v, v ∉ ids -> stop_counters st' !! v = stop_counters st !! v)
  /\ (forall (away : list W) (back : W) (st'' : state W R) (v : string) (c : Z),
        Forall distinct_ids (away ++ [back]) ->
        Forall (fun a => observation a v = None) away ->
        stopped_at v back = true ->
        stop_counters st' !! v = Some c ->
        detection_steps (away ++ [back]) st' = (Ok tt, st'') ->
        stop_counters st'' !! v = Some (c + 1)).
Proof.
  intros Hrun Hids.
  destruct (detection_step_ok _ _ _ Hrun) as (ids' & Hids' & _ & ->).
  assert (ids' = ids) as -> by congruence. simpl.
  split; [intros v; apply scan_is_Some|].
  split; [intros v; apply scan_lookup_notin|].
  intros away back st'' v c Hnd Haway Hback Hc Hsteps.
  rewrite (detection_steps_counter _ _ _ v Hnd Hsteps), observations_snoc.
  simpl. rewrite Hc.
  assert (observations away v = []) as ->.
  { clear -Haway. induction Haway as [|a away Ha _ IH]; [reflexivity|].
    unfold observations in *. simpl. rewrite Ha. exact IH. }
  unfold stopped_at in Hback.
  destruct (observation back v) as [s|]; [|discriminate].
  simpl. unfold next_counter. rewrite Hback. reflexivity.
Qed.

Lemma absent_vehicle_counter_kept_witness :
  let st := state_after [Examples.halted] Examples.start_state in
  let st' := state_after [Examples.halted; Examples.halted]
               Examples.start_state in
  let away := [Examples.departed; Examples.departed] in
  let back := Examples.halted in
  detection_step Examples.halted st = (Ok tt, st')
  /\ stop_counters st' !! "veh0" = Some 2
  /\ stop_counters (state_after (away ++ [back]) st') !! "veh0" = Some (2 + 1).
Proof.
  intros st st' away back.
  assert (Hrun : detection_step Examples.halted st = (Ok tt, st'))
    by (vm_compute; reflexivity).
  assert (Hc : stop_counters st' !! "veh0" = Some 2)
    by (vm_compute; reflexivity).
  split; [exact Hrun|]. split; [exact Hc|].
  destruct (absent_vehicle_counter_kept Examples.halted st st' _ Hrun eq_refl)
    as (_ & _ & H).
  apply (H away back (state_after (away ++ [back]) st') "veh0" 2).
  - repeat constructor; apply toy_distinct_examples.
  - repeat constructor.
  - vm_compute. reflexivity.
  - exact Hc.
  - vm_compute. reflexivity.
Defined.

(** * One report per streak *)

Section Once.
Context {W R : Type} {api : TraCI W}.
Implicit Types (w : W) (ws : list W) (st : state W R) (v : string).

Lemma detection_steps_at ws st st' i w :
  detection_steps ws st = (Ok tt, st') ->
  ws !! i = Some w ->
  detection_steps (take i ws) st = (Ok tt, state_after (take i ws) st)
  /\ exists st1, detection_step w (state_after (take i ws) st) = (Ok tt, st1).
Proof.
  intros Hrun Hi.
  rewrite <- (take_drop_middle ws i w Hi) in Hrun.
  apply detection_steps_split in Hrun as [Hpre Hrest].
  split; [exact Hpre|]. simpl in Hrest.
  destruct (detection_step w (state_after (take i ws) st)) as [[[]|e] st1];
    [eauto|discriminate].
Qed.

Lemma uninterrupted_observations ws v :
  uninterrupted_streak ws v ->
  Forall (fun s => stopped s = true) (observations ws v).
Proof.
  induction 1 as [|w ws Hw _ IH]; [constructor|].
  unfold observations in *. simpl.
  destruct (observation w v) as [s|] eqn:Ho; [|exact IH].
  constructor; [apply Hw; reflexivity | exact IH].
Qed.

Lemma observations_take_S ws i w v :
  ws !! i = Some w ->
  observations (take (S i) ws) v =
  observations (take i ws) v
    ++ match observation w v with Some s => [s] | None => [] end.
Proof.
  intros Hi. rewrite (take_S_r ws i w Hi). apply observations_snoc.
Qed.



(** Some step is the [n]-th sighting of [v], for every [n] up to the
    number of sightings. *)
Lemma seen_through_reaches ws v n :
  (1 <= n <= length (observations ws v))%nat ->
  exists i w, ws !! i = Some w /\ is_Some (observation w v)
              /\ seen_through ws i v = n.
Proof.
  induction ws as [|w ws IH] using rev_ind; intros Hn.
  - simpl in Hn. lia.
  - rewrite observations_snoc, length_app in Hn.
    destruct (decide (n <= length (observations ws v))%nat) as [Hle|Hgt].
    + destruct IH as (i & wi & Hi & Ho & Hs); [lia|].
      exists i, wi. split; [apply lookup_app_l_Some; exact Hi|].
      split; [exact Ho|].
      unfold seen_through in *.
      rewrite take_app_le; [exact Hs|].
      apply lookup_lt_Some in Hi. lia.
    + destruct (observation w v) as [s|] eqn:Ho; simpl in Hn; [|lia].
      exists (length ws), w.
      split; [apply list_lookup_middle; reflexivity|].
      split; [rewrite Ho; eauto|].
      unfold seen_through.
      rewrite take_app_ge by lia.
      replace (S (length ws) - length ws)%nat with 1%nat by lia.
      simpl. rewrite observations_snoc, Ho, length_app. simpl. lia.
Qed.

(** Inside a streak the flag of step [i] depends only on the counter at the
    start of the streak and on how often [v] was seen since. *)
Lemma flag_in_streak ws st st' v i w :
  Forall distinct_ids ws ->
  uninterrupted_streak ws v ->
  detection_steps ws st = (Ok tt, st') ->
  ws !! i = Some w ->
  flags_stop w (state_after (take i ws) st) v <->
  is_Some (observation w v)
  /\ default 0 (stop_counters st !! v) + Z.of_nat (seen_through ws i v)
     = STOP_TIME_THRESHOLD.
Proof.
  intros Hnd Hstreak Hrun Hi.
  destruct (detection_steps_at _ _ _ _ _ Hrun Hi) as [Hpre [st1 Hstep]].
  assert (Hin : w ∈ ws) by (eapply list_elem_of_lookup_2; exact Hi).
  assert (Hdw : distinct_ids w)
    by (exact (proj1 (Forall_forall _ _) Hnd w Hin)).
  assert (Hw : forall s, observation w v = Some s -> stopped s = true)
    by (exact (proj1 (Forall_forall _ _) Hstreak w Hin)).
  rewrite (detection_step_flag _ _ _ v Hdw Hstep).
  rewrite (detection_steps_counter _ _ _ v (Forall_take _ i _ Hnd) Hpre).
  unfold seen_through. rewrite (observations_take_S ws i w v Hi).
  pose proof (counter_after_all_stopped (stop_counters st !! v)
                (observations (take i ws) v)
                (uninterrupted_observations _ _ (Forall_take _ i _ Hstreak)))
    as Hc.
  split.
  - intros (s & Ho & Hs & Hn). rewrite Ho. split; [eauto|].
    unfold next_counter in Hn. rewrite Hs in Hn.
    rewrite length_app. simpl. lia.
  - intros [[s Ho] Hn]. exists s. rewrite Ho in Hn.
    split; [exact Ho|]. split; [apply Hw; exact Ho|].
    unfold next_counter. rewrite (Hw s Ho).
    rewrite length_app in Hn. simpl in Hn. lia.
Qed.

End Once.



(** * The two injections *)

Section Injections.
Context {W R : Type} {api : TraCI W}.
Variable random_choice : R -> list string -> string * R.
Implicit Types (st : state W R).

Lemma inject_sudden_stop_anomaly_eq st :
  inject_sudden_stop_anomaly random_choice st =
  match traci_vehicle_getIDList (sim st) with
  | Raise e =>
      (Raise e,
       mkState (sim st) (rng st) (stop_counters st)
         (trace st ++ [Api GetIDList; Raised e]))
  | Ok [] =>
      (Ok tt,
       mkState (sim st) (rng st) (stop_counters st)
         (trace st ++ [Api GetIDList]))
  | Ok ids =>
      let veh := (random_choice (rng st) ids).1 in
      let r := (random_choice (rng st) ids).2 in
      let tr := trace st ++ [Api GetIDList; Print (ForcingStop veh);
                             Api (SetSpeed veh 0%float)] in
      match traci_vehicle_setSpeed (sim st) veh 0%float with
      | Ok w => (Ok tt, mkState w r (stop_counters st) tr)
      | Raise e =>
          (Raise e, mkState (sim st) r (stop_counters st) (tr ++ [Raised e]))
      end
  end.
Proof.
  unfold inject_sudden_stop_anomaly, bind. rewrite vehicle_getIDList_eq.
  destruct (traci_vehicle_getIDList (sim st)) as [[|x ids]|e];
    [reflexivity| |reflexivity].
  unfold choice, print, vehicle_setSpeed, bind, emit, lift_command, raise.
  simpl. destruct (random_choice (rng st) (x :: ids)) as [veh r]. simpl.
  destruct (traci_vehicle_setSpeed (sim st) veh 0%float); simpl;
    rewrite <- ?app_assoc; reflexivity.
Qed.

Lemma inject_unauthorized_vehicle_eq (now : Z) st :
  inject_unauthorized_vehicle now st =
  match traci_vehicle_add (sim st) (new_id now) "route_0" "0" "max" "car" with
  | Ok w =>
      (Ok tt,
       mkState w (rng st) (stop_counters st)
         (trace st ++ [Api (add_request now);
                       Print (InjectingUnauthorized (new_id now))]))
  | Raise (TraCIException desc) =>
      (Ok tt,
       mkState (sim st) (rng st) (stop_counters st)
         (trace st ++ [Api (add_request now); Raised (TraCIException desc);
                       Print (CouldNotInject desc)]))
  | Raise e =>
      (Raise e,
       mkState (sim st) (rng st) (stop_counters st)
         (trace st ++ [Api (add_request now); Raised e]))
  end.
Proof.
  unfold inject_unauthorized_vehicle, try_except_TraCIException, vehicle_add,
    print, bind, emit, lift_command, raise, add_request, new_id.
  simpl.
  destruct (traci_vehicle_add (sim st)
              (UNAUTHORIZED_VEHICLE_PREFIX ++ str_int now)%string
              "route_0" "0" "max" "car") as [w|[d|d|k]];
    simpl; rewrite <- ?app_assoc; reflexivity.
Qed.

End Injections.

(** C10: with no vehicle in the simulation [inject_sudden_stop_anomaly]
    returns normally after its ID-list query, sends nothing that acts on
    the simulation, prints nothing and leaves the simulation, the generator
    and [stop_counters] as they were; otherwise it sends exactly one
    [setSpeed] request, with speed 0.0, for a vehicle of the ID list. *)
Theorem sudden_stop_targets_one_present_vehicle
    {W R : Type} {api : TraCI W}
    (random_choice : R -> list string -> string * R)
    (st : state W R) (ids : list string) :
  (forall r l, l <> [] -> (random_choice r l).1 ∈ l) ->
  traci_vehicle_getIDList (sim st) = Ok ids ->
  let out := inject_sudden_stop_anomaly random_choice st in
  match ids with
  | [] =>
      out = (Ok tt,
             mkState (sim st) (rng st) (stop_counters st)
               (trace st ++ [Api GetIDList]))
  | _ :: _ =>
      exists veh,
        veh ∈ ids
        /\ stop_counters out.2 = stop_counters st
        /\ requests (new_events st out.2)
           = [GetIDList; SetSpeed veh 0%float]
        /\ forall w, traci_vehicle_setSpeed (sim st) veh 0%float = Ok w ->
                     out.1 = Ok tt /\ sim out.2 = w
  end.
Proof.
  intros Hchoice Hids out. subst out.
  rewrite inject_sudden_stop_anomaly_eq, Hids.
  destruct ids as [|x ids]; [reflexivity|].
  exists (random_choice (rng st) (x :: ids)).1.
  split; [apply Hchoice; discriminate|].
  simpl.
  destruct (traci_vehicle_setSpeed (sim st)
              (random_choice (rng st) (x :: ids)).1 0%float) as [w|e];
    simpl.
  - split; [reflexivity|]. split.
    + erewrite new_events_app; [|reflexivity]. reflexivity.
    + intros w' [= <-]. auto.
  - split; [reflexivity|]. split.
    + erewrite new_events_app; [|simpl; rewrite <- app_assoc; reflexivity].
      reflexivity.
    + intros w' [=].
Qed.

Lemma toy_random_choice_in (r : nat) (l : list string) :
  l <> [] -> (Toy.random_choice r l).1 ∈ l.
Proof.
  intros Hl. unfold Toy.random_choice. simpl.
  apply list_elem_of_In, nth_In.
  apply Nat.mod_upper_bound. destruct l; [contradiction|discriminate].
Qed.

Lemma sudden_stop_targets_one_present_vehicle_witness :
  let st : state Toy.world nat := initial Examples.moving 1%nat in
  let out := inject_sudden_stop_anomaly Toy.random_choice st in
  exists veh,
    veh ∈ ["veh0"; "veh1"]
    /\ stop_counters out.2 = stop_counters st
    /\ requests (new_events st out.2) = [GetIDList; SetSpeed veh 0%float]
    /\ forall w, traci_vehicle_setSpeed (sim st) veh 0%float = Ok w ->
                 out.1 = Ok tt /\ sim out.2 = w.
Proof.
  intros st out.
  exact (sudden_stop_targets_one_present_vehicle Toy.random_choice st
           ["veh0"; "veh1"] toy_random_choice_in eq_refl).
Defined.

(** * Exceptions *)

Lemma handled_app (tr1 tr2 : list event) :
  handled tr1 -> handled tr2 -> handled (tr1 ++ tr2).
Proof.
  induction 1; intros H2; simpl;
    [ exact H2 | apply handled_api | apply handled_print
    | apply handled_caught ]; auto.
Qed.

Lemma handled_map_Print (l : list message) : handled (map Print l).
Proof. induction l; simpl; constructor; assumption. Qed.

Lemma aborted_app (e : exn) (tr1 tr2 : list event) :
  handled tr1 -> aborted e tr2 -> aborted e (tr1 ++ tr2).
Proof.
  intros H1 (tr' & -> & H2). exists (tr1 ++ tr'). split.
  - apply app_assoc.
  - apply handled_app; assumption.
Qed.

Lemma aborted_singleton (e : exn) : aborted e [Raised e].
Proof. exists []. split; [reflexivity|constructor]. Qed.

Section Transparency.
Context {W R : Type} {api : TraCI W}.
Variable random_choice : R -> list string -> string * R.

Lemma transparent_ret {A} (a : A) : transparent (@ret W R A a).
Proof.
  intros st r st' [= <- <-]. exists []. split.
  - symmetry. apply app_nil_r.
  - constructor.
Qed.

Lemma transparent_bind {A B} (m : M W R A) (k : A -> M W R B) :
  transparent m -> (forall a, transparent (k a)) -> transparent (bind m k).
Proof.
  intros Hm Hk st r st' Hrun. unfold bind in Hrun.
  destruct (m st) as [[a|e] st1] eqn:Em.
  - destruct (Hm _ _ _ Em) as (tr1 & Ht1 & H1).
    destruct (Hk a _ _ _ Hrun) as (tr2 & Ht2 & H2).
    exists (tr1 ++ tr2). split.
    + rewrite Ht2, Ht1. symmetry. apply app_assoc.
    + destruct r; [apply handled_app | apply aborted_app]; assumption.
  - inversion Hrun; subst. exact (Hm _ _ _ Em).
Qed.

Lemma transparent_emit_api (c : api_call) : transparent (@emit W R (Api c)).
Proof.
  intros st r st' [= <- <-]. exists [Api c]. simpl.
  split; [reflexivity|repeat constructor].
Qed.

Lemma transparent_print (m : message) : transparent (@print W R m).
Proof.
  intros st r st' [= <- <-]. exists [Print m]. simpl.
  split; [reflexivity|repeat constructor].
Qed.

Lemma transparent_raise {A} (e : exn) : transparent (@raise W R A e).
Proof.
  intros st r st' [= <- <-]. exists [Raised e]. simpl.
  split; [reflexivity|apply aborted_singleton].
Qed.

Lemma transparent_lift_query {A} (f : W -> outcome A) :
  transparent (@lift_query W R A f).
Proof.
  intros st r st' Hrun. unfold lift_query in Hrun.
  destruct (f (sim st)).
  - apply (transparent_ret a st r st' Hrun).
  - apply (transparent_raise e st r st' Hrun).
Qed.

Lemma transparent_lift_command (f : W -> outcome W) :
  transparent (@lift_command W R f).
Proof.
  intros st r st' Hrun. unfold lift_command in Hrun.
  destruct (f (sim st)).
  - inversion Hrun; subst. exists []. simpl. split.
    + symmetry. apply app_nil_r.
    + constructor.
  - apply (transparent_raise e st r st' Hrun).
Qed.

Lemma transparent_for_each {A} (l : list A) (body : A -> M W R unit) :
  (forall x, transparent (body x)) -> transparent (for_each l body).
Proof.
  intros Hbody. induction l as [|x l IH]; simpl.
  - apply transparent_ret.
  - apply transparent_bind; [apply Hbody | intros _; exact IH].
Qed.

Lemma transparent_detect_vehicle (vid : string) :
  transparent (@detect_vehicle W R api vid).
Proof.
  intros st r st' Hrun. rewrite detect_vehicle_eq in Hrun.
  destruct (traci_vehicle_getSpeed (sim st) vid) as [s|e];
    inversion Hrun; subst; simpl; eexists; (split; [reflexivity|]).
  - constructor. apply handled_map_Print.
  - exists [Api (GetSpeed vid)]. split; [reflexivity|repeat constructor].
Qed.

Lemma transparent_vehicle_getIDList :
  transparent (@vehicle_getIDList W R api).
Proof.
  apply transparent_bind; [apply transparent_emit_api|].
  intros _. apply transparent_lift_query.
Qed.

Lemma transparent_detect_anomalies :
  transparent (@detect_anomalies W R api).
Proof.
  apply transparent_bind; [apply transparent_vehicle_getIDList|].
  intros ids. apply transparent_for_each. apply transparent_detect_vehicle.
Qed.

Lemma transparent_inject_sudden_stop_anomaly :
  transparent (inject_sudden_stop_anomaly random_choice).
Proof.
  apply transparent_bind; [apply transparent_vehicle_getIDList|].
  intros [|x ids]; [apply transparent_ret|].
  apply transparent_bind.
  { intros st r st' Hrun. unfold choice in Hrun.
    destruct (random_choice (rng st) (x :: ids)) as [veh g].
    inversion Hrun; subst. exists []. simpl. split.
    - symmetry. apply app_nil_r.
    - constructor. }
  intros veh. apply transparent_bind; [apply transparent_print|].
  intros _. apply transparent_bind; [apply transparent_emit_api|].
  intros _. apply transparent_lift_command.
Qed.

Lemma transparent_inject_unauthorized_vehicle (now : Z) :
  transparent (@inject_unauthorized_vehicle W R api now).
Proof.
  intros st r st' Hrun. rewrite inject_unauthorized_vehicle_eq in Hrun.
  destruct (traci_vehicle_add (sim st) (new_id now) "route_0" "0" "max" "car")
    as [w|[d|d|k]];
    inversion Hrun; subst; simpl; eexists; (split; [reflexivity|]);
    try (repeat constructor; fail).
  - exists [Api (add_request now)]. split; [reflexivity|repeat constructor].
  - exists [Api (add_request now)]. split; [reflexivity|repeat constructor].
Qed.

Lemma transparent_loop_body (now : Z) (step : nat) :
  transparent (loop_body random_choice now step).
Proof.
  apply transparent_bind.
  { apply transparent_bind; [apply transparent_emit_api|].
    intros _. apply transparent_lift_command. }
  intros _. apply transparent_bind.
  { destruct (step =? 50)%nat;
      [apply transparent_inject_sudden_stop_anomaly | apply transparent_ret]. }
  intros _. apply transparent_bind.
  { destruct (step =? 100)%nat;
      [apply transparent_inject_unauthorized_vehicle | apply transparent_ret]. }
  intros _. apply transparent_detect_anomalies.
Qed.

Lemma transparent_run_simulation (now : Z) :
  transparent (run_simulation random_choice now).
Proof.
  apply transparent_bind.
  { apply transparent_bind; [apply transparent_emit_api|].
    intros _. apply transparent_lift_command. }
  intros _. apply transparent_bind; [apply transparent_print|].
  intros _. apply transparent_bind.
  { apply transparent_for_each. apply transparent_loop_body. }
  intros _. apply transparent_print.
Qed.

End Transparency.

(** C5: a [TraCIException] raised by the insertion request is caught: the
    error line is printed, [inject_unauthorized_vehicle] returns normally
    and the simulation, the generator and [stop_counters] are unchanged.
    Nothing else is caught: any other exception of the insertion request
    leaves the routine, and whenever a routine or the whole program returns
    normally, every exception raised on the way was such a caught insertion
    failure, and whenever it ends with an exception, that exception was
    raised last and ended the run. *)
Theorem only_insertion_failure_is_caught
    {W R : Type} {api : TraCI W}
    (random_choice : R -> list string -> string * R)
    (now : Z) (st : state W R) :
  (forall desc,
      traci_vehicle_add (sim st) (new_id now) "route_0" "0" "max" "car"
        = Raise (TraCIException desc) ->
      inject_unauthorized_vehicle now st
        = (Ok tt,
           mkState (sim st) (rng st) (stop_counters st)
             (trace st ++ [Api (add_request now);
                           Raised (TraCIException desc);
                           Print (CouldNotInject desc)])))
  /\ (forall e,
        (forall d, e <> TraCIException d) ->
        traci_vehicle_add (sim st) (new_id now) "route_0" "0" "max" "car"
          = Raise e ->
        (inject_unauthorized_vehicle now st).1 = Raise e)
  /\ transparent (inject_sudden_stop_anomaly random_choice)
  /\ transparent (@detect_anomalies W R api)
  /\ (forall step, transparent (loop_body random_choice now step))
  /\ transparent (run_simulation random_choice now).
Proof.
  split.
  { intros desc Hadd. rewrite inject_unauthorized_vehicle_eq, Hadd.
    reflexivity. }
  split.
  { intros e Hne He. rewrite inject_unauthorized_vehicle_eq, He.
    destruct e as [d|d|k]; [|reflexivity|reflexivity].
    exfalso. apply (Hne d). reflexivity. }
  split; [apply transparent_inject_sudden_stop_anomaly|].
  split; [apply transparent_detect_anomalies|].
  split; [intros step; apply transparent_loop_body|].
  apply transparent_run_simulation.
Qed.

Lemma only_insertion_failure_is_caught_witness :
  let st : state Toy.world nat :=
    initial [("unauth1700000000", 3%float)] O in
  inject_unauthorized_vehicle 1700000000 st
  = (Ok tt,
     mkState (sim st) (rng st) (stop_counters st)
       (trace st
          ++ [Api (add_request 1700000000);
              Raised (TraCIException
                        "The vehicle 'unauth1700000000' to add already exists.");
              Print (CouldNotInject
                       "The vehicle 'unauth1700000000' to add already exists.")])).
Proof.
  intros st.
  destruct (only_insertion_failure_is_caught Toy.random_choice 1700000000 st)
    as [H _].
  apply H. vm_compute. reflexivity.
Defined.

(** * Injection and detection of the unauthorized vehicle *)

(** C7: the ID that [inject_unauthorized_vehicle] passes to the insertion
    request is "unauth" followed by the decimal digits of the clock reading;
    it satisfies the prefix test of [detect_anomalies], so the vehicle is
    reported as unauthorized at every detection step at which it is in the
    ID list. *)
Theorem injected_vehicle_is_reported
    {W R : Type} {api : TraCI W} (now : Z) (st : state W R) :
  0 <= now ->
  (exists digits,
      new_id now = ("unauth" ++ digits)%string
      /\ digits <> ""%string /\ all_digits digits = true)
  /\ requests (new_events st (inject_unauthorized_vehicle now st).2)
     = [add_request now]
  /\ startswith (new_id now) UNAUTHORIZED_VEHICLE_PREFIX = true
  /\ (forall (w : W) (st1 st2 : state W R) (ids : list string),
        detection_step w st1 = (Ok tt, st2) ->
        traci_vehicle_getIDList w = Ok ids ->
        new_id now ∈ ids ->
        flags_unauthorized w st1 (new_id now)).
Proof.
  intros Hnow.
  assert (Hpre : startswith (new_id now) UNAUTHORIZED_VEHICLE_PREFIX = true)
    by apply prefix_app.
  split.
  { exists (str_int now). destruct (str_int_digits now Hnow) as [Hd Hne].
    repeat split; assumption. }
  split.
  { rewrite inject_unauthorized_vehicle_eq.
    destruct (traci_vehicle_add (sim st) (new_id now) "route_0" "0" "max" "car")
      as [w|[d|d|k]]; simpl;
      (erewrite new_events_app; [|reflexivity]); reflexivity. }
  split; [exact Hpre|].
  intros w st1 st2 ids Hrun Hids Hin.
  apply (detection_step_unauthorized _ _ _ _ Hrun). exists ids. auto.
Qed.

Lemma injected_vehicle_is_reported_witness :
  let now := 1700000000 in
  let st : state Toy.world nat := initial Examples.moving O in
  let w := sim (inject_unauthorized_vehicle now st).2 in
  0 <= now
  /\ new_id now = "unauth1700000000"
  /\ flags_unauthorized w st (new_id now).
Proof.
  intros now st w.
  assert (Hnow : 0 <= now) by (vm_compute; discriminate).
  split; [exact Hnow|]. split; [reflexivity|].
  destruct (injected_vehicle_is_reported now st Hnow) as (_ & _ & _ & H).
  apply (H w st (detection_step w st).2
           ["veh0"; "veh1"; "unauth1700000000"]).
  - vm_compute. reflexivity.
  - reflexivity.
  - apply list_elem_of_In. simpl. auto.
Defined.

(** * The main loop *)

Lemma for_each_app {W R A} (l1 l2 : list A) (body : A -> M W R unit)
    (st : state W R) :
  for_each (l1 ++ l2) body st =
  match for_each l1 body st with
  | (Ok _, st1) => for_each l2 body st1
  | (Raise e, st1) => (Raise e, st1)
  end.
Proof.
  revert st. induction l1 as [|x l1 IH]; intros st; simpl; [reflexivity|].
  unfold bind. destruct (body x st) as [[[]|e] st1]; [apply IH|reflexivity].
Qed.

Lemma injection_markers_other (b b' : bool) (step : nat) :
  step <> 50%nat -> injection_markers b step = injection_markers b' step.
Proof.
  intros Hne. unfold injection_markers.
  destruct (Nat.eqb_spec step 50); [contradiction|reflexivity].
Qed.

Lemma schedule_other (b b' : bool) (steps : list nat) :
  50%nat ∉ steps -> schedule b steps = schedule b' steps.
Proof.
  induction steps as [|x steps IH]; intros Hnotin; [reflexivity|].
  apply not_elem_of_cons in Hnotin as [Hne Hnotin].
  change (schedule b (x :: steps))
    with (iteration_markers b x ++ schedule b steps).
  change (schedule b' (x :: steps))
    with (iteration_markers b' x ++ schedule b' steps).
  unfold iteration_markers.
  rewrite (injection_markers_other b b' x) by congruence.
  rewrite IH by assumption. reflexivity.
Qed.

Section MainLoop.
Context {W R : Type} {api : TraCI W}.
Variable random_choice : R -> list string -> string * R.
Implicit Types (st : state W R).

Lemma simulationStep_ok st st' :
  simulationStep st = (Ok tt, st') ->
  trace st' = trace st ++ [Api SimulationStep]
  /\ stop_counters st' = stop_counters st.
Proof.
  unfold simulationStep, bind, emit, lift_command, raise. simpl.
  destruct (traci_simulationStep (sim st)); intros [= <-]; auto.
Qed.

Lemma inject_sudden_stop_anomaly_ok st st' :
  inject_sudden_stop_anomaly random_choice st = (Ok tt, st') ->
  stop_counters st' = stop_counters st
  /\ exists ids tr,
       traci_vehicle_getIDList (sim st) = Ok ids
       /\ trace st' = trace st ++ tr
       /\ skeleton tr
          = Poll :: (if bool_decide (ids = []) then [] else [Stop]).
Proof.
  rewrite inject_sudden_stop_anomaly_eq.
  destruct (traci_vehicle_getIDList (sim st)) as [[|x ids]|e];
    [| |discriminate].
  - intros [= <-]. split; [reflexivity|].
    exists [], [Api GetIDList]. auto.
  - simpl.
    destruct (traci_vehicle_setSpeed (sim st)
                (random_choice (rng st) (x :: ids)).1 0%float);
      [|discriminate].
    intros [= <-]. split; [reflexivity|].
    eexists (x :: ids), _. split; [reflexivity|].
    split; reflexivity.
Qed.

Lemma inject_unauthorized_vehicle_ok (now : Z) st st' :
  inject_unauthorized_vehicle now st = (Ok tt, st') ->
  stop_counters st' = stop_counters st
  /\ exists tr, trace st' = trace st ++ tr /\ skeleton tr = [Insert].
Proof.
  rewrite inject_unauthorized_vehicle_eq.
  destruct (traci_vehicle_add (sim st) (new_id now) "route_0" "0" "max" "car")
    as [w|[d|d|k]]; try discriminate;
    intros [= <-]; (split; [reflexivity|]); eexists; split; reflexivity.
Qed.

Lemma detect_anomalies_skeleton st st' :
  detect_anomalies st = (Ok tt, st') ->
  exists tr, trace st' = trace st ++ tr /\ skeleton tr = [Poll].
Proof.
  intros H. apply detect_anomalies_ok in H as (ids & _ & _ & ->). simpl.
  eexists. split; [reflexivity|].
  change (Poll :: skeleton
            (scan (speed_or_zero (sim st)) ids (stop_counters st)).2 = [Poll]).
  rewrite scan_skeleton. reflexivity.
Qed.

(** One pass of the loop body that returns: the requests of the step, then
    detection on the state the injections left. *)
Lemma loop_body_ok (now : Z) (step : nat) st st' :
  loop_body random_choice now step st = (Ok tt, st') ->
  exists (stop_sent : bool) (st1 : state W R) (tr1 tr2 : list event),
    trace st1 = trace st ++ tr1
    /\ skeleton tr1 = injection_markers stop_sent step
    /\ stop_counters st1 = stop_counters st
    /\ detect_anomalies st1 = (Ok tt, st')
    /\ trace st' = trace st1 ++ tr2
    /\ skeleton tr2 = [Poll].
Proof.
  unfold loop_body, bind.
  destruct (simulationStep st) as [[[]|e] sa] eqn:Ea; [|discriminate].
  apply simulationStep_ok in Ea as [Ta Ca].
  destruct ((if (step =? 50)%nat
             then inject_sudden_stop_anomaly random_choice else ret tt) sa)
    as [[[]|e] sb] eqn:Eb; [|discriminate].
  destruct ((if (step =? 100)%nat
             then inject_unauthorized_vehicle now else ret tt) sb)
    as [[[]|e] sc] eqn:Ec; [|discriminate].
  intros Hd.
  assert (Hb : stop_counters sb = stop_counters sa
               /\ exists (b : bool) trb,
                    trace sb = trace sa ++ trb
                    /\ skeleton trb
                       = if (step =? 50)%nat
                         then Poll :: (if b then [Stop] else []) else []).
  { destruct (step =? 50)%nat.
    - apply inject_sudden_stop_anomaly_ok in Eb
        as (Cb & ids & trb & _ & Tb & Sb).
      split; [exact Cb|].
      exists (negb (bool_decide (ids = []))), trb. split; [exact Tb|].
      rewrite Sb. destruct (bool_decide (ids = [])); reflexivity.
    - inversion Eb; subst. split; [reflexivity|].
      exists false, []. rewrite app_nil_r. auto. }
  destruct Hb as (Cb & b & trb & Tb & Sb).
  assert (Hc : stop_counters sc = stop_counters sb
               /\ exists trc,
                    trace sc = trace sb ++ trc
                    /\ skeleton trc
                       = if (step =? 100)%nat then [Insert] else []).
  { destruct (step =? 100)%nat.
    - apply inject_unauthorized_vehicle_ok in Ec. exact Ec.
    - inversion Ec; subst. split; [reflexivity|].
      exists []. rewrite app_nil_r. auto. }
  destruct Hc as (Cc & trc & Tc & Sc).
  destruct (detect_anomalies_skeleton _ _ Hd) as (trd & Td & Sd).
  exists b, sc, ([Api SimulationStep] ++ trb ++ trc), trd.
  split; [rewrite Tc, Tb, Ta, <- !app_assoc; reflexivity|].
  split.
  { rewrite !skeleton_app, Sb, Sc. reflexivity. }
  split; [congruence|].
  split; [exact Hd|]. split; [exact Td|exact Sd].
Qed.

Lemma loop_body_skeleton (now : Z) (step : nat) st st' :
  loop_body random_choice now step st = (Ok tt, st') ->
  exists (stop_sent : bool) (tr : list event),
    trace st' = trace st ++ tr
    /\ skeleton tr = iteration_markers stop_sent step.
Proof.
  intros H. apply loop_body_ok in H
    as (b & st1 & tr1 & tr2 & T1 & S1 & _ & _ & T2 & S2).
  exists b, (tr1 ++ tr2). split.
  - rewrite T2, T1, app_assoc. reflexivity.
  - rewrite skeleton_app, S1, S2. reflexivity.
Qed.

Lemma for_each_skeleton (now : Z) (steps : list nat) :
  50%nat ∉ steps ->
  forall st st',
    for_each steps (loop_body random_choice now) st = (Ok tt, st') ->
    exists tr,
      trace st' = trace st ++ tr
      /\ forall b, skeleton tr = schedule b steps.
Proof.
  induction steps as [|x steps IH]; intros Hnotin st st' Hrun.
  - inversion Hrun; subst. exists []. rewrite app_nil_r. auto.
  - apply not_elem_of_cons in Hnotin as [Hne Hnotin].
    simpl in Hrun. unfold bind in Hrun.
    destruct (loop_body random_choice now x st) as [[[]|e] st1] eqn:Ex;
      [|discriminate].
    apply loop_body_skeleton in Ex as (b0 & tr1 & T1 & S1).
    destruct (IH Hnotin _ _ Hrun) as (tr2 & T2 & S2).
    exists (tr1 ++ tr2). split.
    + rewrite T2, T1, app_assoc. reflexivity.
    + intros b. rewrite skeleton_app, S1, (S2 b).
      change (schedule b (x :: steps))
        with (iteration_markers b x ++ schedule b steps).
      unfold iteration_markers.
      rewrite (injection_markers_other b0 b x) by congruence. reflexivity.
Qed.

Lemma main_loop_skeleton (now : Z) st st' :
  for_each (range 300) (loop_body random_choice now) st = (Ok tt, st') ->
  exists (stop_sent : bool) (tr : list event),
    trace st' = trace st ++ tr
    /\ skeleton tr = schedule stop_sent (range 300).
Proof.
  change (range 300) with (seq 0 50 ++ [50%nat] ++ seq 51 249).
  rewrite for_each_app.
  destruct (for_each (seq 0 50) (loop_body random_choice now) st)
    as [[[]|e] s1] eqn:E1; [|discriminate].
  apply for_each_skeleton in E1 as (tr1 & T1 & S1);
    [|apply (bool_decide_unpack _); vm_compute; exact I].
  rewrite for_each_app.
  destruct (for_each [50%nat] (loop_body random_choice now) s1)
    as [[[]|e] s2] eqn:E2; [|discriminate].
  change (for_each [50%nat] (loop_body random_choice now) s1)
    with (bind (loop_body random_choice now 50) (fun _ => ret tt) s1) in E2.
  unfold bind in E2.
  destruct (loop_body random_choice now 50 s1) as [[[]|e] s2'] eqn:E2';
    [|discriminate].
  inversion E2; subst s2'. clear E2.
  apply loop_body_skeleton in E2' as (b & tr2 & T2 & S2).
  intros E3.
  apply for_each_skeleton in E3 as (tr3 & T3 & S3);
    [|apply (bool_decide_unpack _); vm_compute; exact I].
  exists b, (tr1 ++ tr2 ++ tr3). split.
  - rewrite T3, T2, T1, <- !app_assoc. reflexivity.
  - rewrite !skeleton_app, S2, (S1 b), (S3 b).
    unfold schedule. rewrite !flat_map_app.
    change (flat_map (iteration_markers b) [50%nat])
      with (iteration_markers b 50 ++ []).
    rewrite app_nil_r. reflexivity.
Qed.

(** The requests of a complete run follow the schedule of the loop. *)
Lemma run_simulation_skeleton (now : Z) st st' :
  run_simulation random_choice now st = (Ok tt, st') ->
  exists stop_sent : bool,
    skeleton (new_events st st') = schedule stop_sent (range 300).
Proof.
  unfold run_simulation, bind.
  destruct (start sumo_cmd st) as [[[]|e] s0] eqn:E0; [|discriminate].
  assert (T0 : trace s0 = trace st ++ [Api (Start sumo_cmd)]).
  { unfold start, bind, emit, lift_command, raise in E0. simpl in E0.
    destruct (traci_start (sim st) sumo_cmd); inversion E0; reflexivity. }
  destruct (print InfoStarted s0) as [[[]|e] s1] eqn:Ep; [|discriminate].
  assert (T1 : trace s1 = trace s0 ++ [Print InfoStarted])
    by (inversion Ep; reflexivity).
  destruct (for_each (range 300) (loop_body random_choice now) s1)
    as [[[]|e] s2] eqn:El; [|discriminate].
  apply main_loop_skeleton in El as (b & tr & T2 & S2).
  intros [= <-]. exists b.
  erewrite new_events_app;
    [|simpl; rewrite T2, T1, T0, <- !app_assoc; reflexivity].
  rewrite !skeleton_app, S2. simpl. rewrite app_nil_r. reflexivity.
Qed.

End MainLoop.

(** C3 (amended): in a run that completes, the requests reach the simulator
    in the order of the schedule: every loop step advances the simulation
    and ends with detection; the stop injection runs only at step 50, where
    it polls the ID list and sends its [setSpeed] request exactly when that
    list is not empty; the insertion request is sent only at step 100,
    exactly once; and detection always runs on the state the injections of
    the step have left. *)
Theorem main_loop_follows_schedule
    {W R : Type} {api : TraCI W}
    (random_choice : R -> list string -> string * R)
    (now : Z) (st st' : state W R) :
  run_simulation random_choice now st = (Ok tt, st') ->
  (exists stop_sent : bool,
      skeleton (new_events st st') = schedule stop_sent (range 300)
      /\ count_marker Tick (skeleton (new_events st st')) = 300%nat
      /\ count_marker Insert (skeleton (new_events st st')) = 1%nat
      /\ count_marker Stop (skeleton (new_events st st'))
         = if stop_sent then 1%nat else 0%nat)
  /\ (forall step s s',
        loop_body random_choice now step s = (Ok tt, s') ->
        exists (stop_sent : bool) (s1 : state W R),
          skeleton (new_events s s1) = injection_markers stop_sent step
          /\ detect_anomalies s1 = (Ok tt, s')
          /\ skeleton (new_events s1 s') = [Poll])
  /\ (forall s s1 s' ids,
        simulationStep s = (Ok tt, s1) ->
        traci_vehicle_getIDList (sim s1) = Ok ids ->
        loop_body random_choice now 50 s = (Ok tt, s') ->
        skeleton (new_events s s')
        = iteration_markers (negb (bool_decide (ids = []))) 50).
Proof.
  intros Hrun. split; [|split].
  - destruct (run_simulation_skeleton random_choice now st st' Hrun)
      as [b Hb].
    exists b. rewrite Hb. split; [reflexivity|].
    destruct b; vm_compute; auto.
  - intros step s s' Hbody.
    apply loop_body_ok in Hbody
      as (b & s1 & tr1 & tr2 & T1 & S1 & _ & Hd & T2 & S2).
    exists b, s1.
    rewrite (new_events_app _ _ _ T1), (new_events_app _ _ _ T2). auto.
  - intros s s1 s' ids Hsim Hids Hbody.
    unfold loop_body, bind in Hbody. rewrite Hsim in Hbody.
    change (50 =? 50)%nat with true in Hbody.
    change (50 =? 100)%nat with false in Hbody.
    cbv beta iota in Hbody.
    apply simulationStep_ok in Hsim as [T1 _].
    destruct (inject_sudden_stop_anomaly random_choice s1)
      as [[[]|e] s2] eqn:E2; [|discriminate].
    apply inject_sudden_stop_anomaly_ok in E2
      as (_ & ids' & tr2 & Hids' & T2 & S2).
    assert (ids' = ids) as -> by congruence.
    unfold ret in Hbody.
    apply detect_anomalies_skeleton in Hbody as (tr3 & T3 & S3).
    erewrite new_events_app;
      [|rewrite T3, T2, T1, <- !app_assoc; reflexivity].
    rewrite !skeleton_app, S2, S3.
    destruct (bool_decide (ids = [])); reflexivity.
Qed.

Lemma main_loop_follows_schedule_witness :
  let st : state Toy.world nat := initial Examples.moving 1%nat in
  let out := run_simulation Toy.random_choice 1700000000 st in
  out = (Ok tt, out.2)
  /\ exists stop_sent : bool,
       skeleton (new_events st out.2) = schedule stop_sent (range 300)
       /\ count_marker Tick (skeleton (new_events st out.2)) = 300%nat
       /\ count_marker Insert (skeleton (new_events st out.2)) = 1%nat
       /\ count_marker Stop (skeleton (new_events st out.2))
          = if stop_sent then 1%nat else 0%nat.
Proof.
  intros st out.
  assert (Hrun : run_simulation Toy.random_choice 1700000000 st
                 = (Ok tt, out.2)) by (vm_compute; reflexivity).
  split; [exact Hrun|].
  exact (proj1 (main_loop_follows_schedule Toy.random_choice 1700000000
                  st out.2 Hrun)).
Defined.

(** C3 as stated fails: on a network without vehicles the run completes,
    the insertion is requested once, and no vehicle is ever told to stop. *)
Lemma no_stop_injected_on_empty_network :
  let out := run_simulation Toy.random_choice 1700000000
               Examples.start_state in
  out.1 = Ok tt
  /\ ~ (count_marker Stop (skeleton (trace out.2)) = 1%nat
        /\ count_marker Insert (skeleton (trace out.2)) = 1%nat).
Proof.
  intros out. split; [vm_compute; reflexivity|].
  intros [H _]. vm_compute in H. discriminate.
Qed.

(** An uncaught exception at work: when the connection is lost after start,
    the first [simulationStep] raises and the run ends there. *)
Example run_aborts_when_connection_is_lost :
  let out := @run_simulation Toy.world nat Toy.closed Toy.random_choice
               1700000000 Examples.start_state in
  out.1 = Raise (FatalTraCIError "connection closed by SUMO")
  /\ trace out.2
     = [Api (Start sumo_cmd); Print InfoStarted; Api SimulationStep;
        Raised (FatalTraCIError "connection closed by SUMO")].
Proof. vm_compute. auto. Qed.

(** ** The main loop as a history of detection steps *)

Section LoopHistory.
Context {W R : Type} {api : TraCI W}.
Variable random_choice : R -> list string -> string * R.
Implicit Types (st : state W R).

(** What detection stores depends only on the simulation and on the
    counters it starts from. *)
Lemma detect_anomalies_counters st1 st2 st1' :
  sim st2 = sim st1 -> stop_counters st2 = stop_counters st1 ->
  detect_anomalies st1 = (Ok tt, st1') ->
  exists st2',
    detect_anomalies st2 = (Ok tt, st2')
    /\ stop_counters st2' = stop_counters st1'.
Proof.
  intros Hsim Hsc Hrun.
  apply detect_anomalies_ok in Hrun as (ids & Hids & Hok & ->).
  unfold detect_anomalies, bind.
  rewrite vehicle_getIDList_eq, Hsim, Hids.
  rewrite for_each_detect_ok by (simpl; exact Hok).
  eexists. split; [reflexivity|]. simpl. rewrite Hsc. reflexivity.
Qed.

(** The steps of the main loop leave in [stop_counters] exactly what the
    detection steps alone leave, run on the worlds detection has seen: the
    simulation steps and the injections never touch the counters. *)
Lemma main_loop_detection_history (now : Z) (steps : list nat) :
  forall st (sh : state W R) st',
    stop_counters sh = stop_counters st ->
    for_each steps (loop_body random_choice now) st = (Ok tt, st') ->
    exists ws sh',
      length ws = length steps
      /\ detection_steps ws sh = (Ok tt, sh')
      /\ stop_counters sh' = stop_counters st'.
Proof.
  induction steps as [|x steps IH]; intros st sh st' Hsc Hrun.
  - inversion Hrun; subst. exists [], sh. auto.
  - simpl in Hrun. unfold bind in Hrun.
    destruct (loop_body random_choice now x st) as [[[]|e] st1] eqn:Ex;
      [|discriminate].
    apply loop_body_ok in Ex
      as (b & s1 & tr1 & tr2 & _ & _ & Hc1 & Hd & _ & _).
    destruct (detect_anomalies_counters s1 (at_world (sim s1) sh) st1)
      as (sh1 & Hd1 & Hc2); [reflexivity|simpl; congruence|exact Hd|].
    destruct (IH st1 sh1 st' Hc2 Hrun) as (ws & sh' & Hlen & Hsteps & Hc').
    exists (sim s1 :: ws), sh'. split; [simpl; congruence|].
    split; [|exact Hc'].
    simpl. unfold detection_step. rewrite Hd1. exact Hsteps.
Qed.

End LoopHistory.

(** ** The printed text *)

Example render_stop_anomaly :
  render (StoppedFor "veh0")
  = "[ANOMALY DETECTED] veh0 has been stopped for 5 steps.".
Proof. reflexivity. Qed.

Example render_unauthorized :
  render (UnauthorizedOnNetwork "unauth1700000000")
  = "[ANOMALY DETECTED] Unauthorized vehicle on network: unauth1700000000".
Proof. reflexivity. Qed.

(** * Further properties of the script *)

(** ** Detection that fails half-way *)

Section DetectionFailure.
Context {W R : Type} {api : TraCI W}.
Implicit Types (st : state W R).

Lemma for_each_detect_raise (f : string -> float) (pre : list string)
    (v : string) (post : list string) (e : exn) st :
  (forall u, u ∈ pre -> traci_vehicle_getSpeed (sim st) u = Ok (f u)) ->
  traci_vehicle_getSpeed (sim st) v = Raise e ->
  for_each (pre ++ v :: post) detect_vehicle st =
  (Raise e,
   mkState (sim st) (rng st) (scan f pre (stop_counters st)).1
     (trace st ++ (scan f pre (stop_counters st)).2
        ++ [Api (GetSpeed v); Raised e])).
Proof.
  intros Hpre Hv. rewrite for_each_app.
  rewrite (for_each_detect_scan f pre st Hpre).
  simpl. unfold bind. rewrite detect_vehicle_eq. simpl. rewrite Hv.
  rewrite <- app_assoc. reflexivity.
Qed.

Lemma for_each_detect_raised (ids : list string) :
  forall st st' e,
    for_each ids detect_vehicle st = (Raise e, st') ->
    exists v, v ∈ ids /\ traci_vehicle_getSpeed (sim st) v = Raise e.
Proof.
  induction ids as [|x ids IH]; intros st st' e Hrun; [discriminate|].
  simpl in Hrun. unfold bind in Hrun. rewrite detect_vehicle_eq in Hrun.
  destruct (traci_vehicle_getSpeed (sim st) x) as [s|e'] eqn:Hx.
  - simpl in Hrun. apply IH in Hrun as (v & Hin & Hv). simpl in Hv.
    exists v. split; [right; exact Hin|exact Hv].
  - inversion Hrun; subst. exists x. split; [left|exact Hx].
Qed.

End DetectionFailure.

(** X1: the detection loop is not atomic.  When the speed query fails for a
    listed vehicle, [detect_anomalies] ends with that exception after it has
    already advanced the counters of the vehicles listed before it; the
    counters of all other vehicles, the failing one included, are as they
    were. *)
Theorem detection_failure_keeps_earlier_updates
    {W R : Type} {api : TraCI W}
    (st : state W R) (pre : list string) (v : string) (post : list string)
    (e : exn) :
  traci_vehicle_getIDList (sim st) = Ok (pre ++ v :: post) ->
  (forall u, u ∈ pre -> exists s, traci_vehicle_getSpeed (sim st) u = Ok s) ->
  traci_vehicle_getSpeed (sim st) v = Raise e ->
  (detect_anomalies st).1 = Raise e
  /\ (forall u, u ∉ pre ->
        stop_counters (detect_anomalies st).2 !! u = stop_counters st !! u)
  /\ (NoDup pre ->
      forall u s, u ∈ pre -> traci_vehicle_getSpeed (sim st) u = Ok s ->
        stop_counters (detect_anomalies st).2 !! u
        = Some (next_counter (stop_counters st !! u) s)).
Proof.
  intros Hids Hpre Hv.
  assert (Hf : forall u, u ∈ pre ->
             traci_vehicle_getSpeed (sim st) u = Ok (speed_or_zero (sim st) u)).
  { intros u Hu. destruct (Hpre u Hu) as [s Hs].
    unfold speed_or_zero. rewrite Hs. reflexivity. }
  unfold detect_anomalies, bind. rewrite vehicle_getIDList_eq, Hids.
  rewrite (for_each_detect_raise (speed_or_zero (sim st)) pre v post e);
    [|exact Hf|exact Hv].
  simpl. split; [reflexivity|]. split.
  - intros u Hu. apply scan_lookup_notin. exact Hu.
  - intros Hnd u s Hu Hs. rewrite scan_lookup_in by assumption.
    unfold speed_or_zero. rewrite Hs. reflexivity.
Qed.

Lemma detection_failure_keeps_earlier_updates_witness :
  let st : state Toy.world nat :=
    mkState Examples.halted O {["veh0" := 4; "ghost" := 2]} [] in
  let out := @detect_anomalies _ _ Toy.stale st in
  out.1 = Raise (TraCIException "Vehicle 'ghost' is not known.")
  /\ stop_counters out.2 !! "ghost" = Some 2
  /\ stop_counters out.2 !! "veh0" = Some 5.
Proof.
  intros st out.
  destruct (@detection_failure_keeps_earlier_updates _ _ Toy.stale st
              ["veh0"; "veh1"] "ghost" []
              (TraCIException "Vehicle 'ghost' is not known."))
    as (Hout & Hrest & Hpre).
  - reflexivity.
  - intros u Hu. apply list_elem_of_In in Hu.
    destruct Hu as [<-|[<-|[]]]; eexists; reflexivity.
  - reflexivity.
  - subst out. split; [exact Hout|]. split.
    + rewrite Hrest; [reflexivity|].
      intros Hin. apply list_elem_of_In in Hin.
      destruct Hin as [?|[?|[]]]; discriminate.
    + rewrite (Hpre ltac:(apply (bool_decide_unpack _); vm_compute; exact I)
                 "veh0" 0%float); [reflexivity| |reflexivity].
      apply list_elem_of_In. simpl. auto.
Defined.

(** X2: [detect_anomalies] raises nothing of its own: when it ends with an
    exception, that exception was raised by the ID-list query or by the
    speed query of a listed vehicle.  In particular the subscript
    [stop_counters[vid]] of line 97 never fails with a [KeyError], also for
    a vehicle seen for the first time. *)
Theorem detection_raises_only_what_the_simulator_raised
    {W R : Type} {api : TraCI W} (st st' : state W R) (e : exn) :
  detect_anomalies st = (Raise e, st') ->
  traci_vehicle_getIDList (sim st) = Raise e
  \/ exists ids v,
       traci_vehicle_getIDList (sim st) = Ok ids
       /\ v ∈ ids /\ traci_vehicle_getSpeed (sim st) v = Raise e.
Proof.
  unfold detect_anomalies, bind. rewrite vehicle_getIDList_eq.
  destruct (traci_vehicle_getIDList (sim st)) as [ids|e'] eqn:Hids.
  - intros Hrun. right.
    apply for_each_detect_raised in Hrun as (v & Hin & Hv).
    exists ids, v. auto.
  - intros [= <- _]. left. reflexivity.
Qed.

Lemma detection_raises_only_what_the_simulator_raised_witness :
  let st : state Toy.world nat := initial Examples.halted O in
  let out := @detect_anomalies _ _ Toy.stale st in
  out = (Raise (TraCIException "Vehicle 'ghost' is not known."), out.2)
  /\ (@traci_vehicle_getIDList _ Toy.stale (sim st)
      = Raise (TraCIException "Vehicle 'ghost' is not known.")
      \/ exists ids v,
           @traci_vehicle_getIDList _ Toy.stale (sim st) = Ok ids
           /\ v ∈ ids
           /\ @traci_vehicle_getSpeed _ Toy.stale (sim st) v
              = Raise (TraCIException "Vehicle 'ghost' is not known.")).
Proof.
  intros st out.
  assert (Hrun : out = (Raise (TraCIException "Vehicle 'ghost' is not known."),
                        out.2)) by (vm_compute; reflexivity).
  split; [exact Hrun|].
  exact (@detection_raises_only_what_the_simulator_raised _ _ Toy.stale
           st out.2 _ Hrun).
Defined.

(** ** The detector re-arms *)

(** X3: a report does not silence the detector for good.  Whatever the
    counter of a vehicle was, once a detection step has seen it at 0.1 or
    more, the fifth sighting below 0.1 of the streak that follows prints the
    stop anomaly again. *)
Theorem stop_flag_fires_again_after_reset
    {W R : Type} {api : TraCI W}
    (reset : W) (ws : list W) (st st' : state W R) (v : string) (s : float) :
  Forall distinct_ids (reset :: ws) ->
  observation reset v = Some s ->
  stopped s = false ->
  uninterrupted_streak ws v ->
  detection_steps (reset :: ws) st = (Ok tt, st') ->
  STOP_TIME_THRESHOLD <= Z.of_nat (length (observations ws v)) ->
  exists i w,
    ws !! i = Some w
    /\ Z.of_nat (seen_through ws i v) = STOP_TIME_THRESHOLD
    /\ flags_stop w (state_after (reset :: take i ws) st) v.
Proof.
  intros Hnd Ho Hs Hstreak Hrun Hlong.
  inversion Hnd as [|? ? Hdr Hdws]; subst.
  simpl in Hrun.
  destruct (detection_step reset st) as [[[]|e] st1] eqn:Estep;
    [|discriminate].
  pose proof (detection_step_counter _ _ _ v Hdr Estep) as Hc.
  rewrite Ho in Hc. unfold next_counter in Hc. rewrite Hs in Hc.
  unfold STOP_TIME_THRESHOLD in *.
  destruct (seen_through_reaches ws v 5) as (i & w & Hi & Hobs & Hseen);
    [lia|].
  exists i, w. split; [exact Hi|]. split; [rewrite Hseen; reflexivity|].
  assert (Hst : state_after (reset :: take i ws) st
                = state_after (take i ws) st1).
  { unfold state_after. simpl. rewrite Estep. reflexivity. }
  rewrite Hst.
  apply (flag_in_streak ws st1 st' v i w Hdws Hstreak Hrun Hi).
  split; [exact Hobs|]. rewrite Hc, Hseen. reflexivity.
Qed.

Lemma stop_flag_fires_again_after_reset_witness :
  let ws := replicate 5 Examples.halted in
  let st := state_after (replicate 9 Examples.halted) Examples.start_state in
  stop_counters st !! "veh0" = Some 9
  /\ exists i w,
       ws !! i = Some w
       /\ Z.of_nat (seen_through ws i "veh0") = STOP_TIME_THRESHOLD
       /\ flags_stop w (state_after (Examples.moving :: take i ws) st) "veh0".
Proof.
  intros ws st. split; [vm_compute; reflexivity|].
  apply (stop_flag_fires_again_after_reset Examples.moving ws st
           (state_after (Examples.moving :: ws) st) "veh0" 2%float).
  - repeat constructor; apply toy_distinct_examples.
  - reflexivity.
  - vm_compute. reflexivity.
  - repeat constructor; intros s [= <-]; reflexivity.
  - vm_compute. reflexivity.
  - vm_compute. discriminate.
Defined.

(** ** The order of the printed lines *)

Lemma printed_app (l1 l2 : list event) :
  printed (l1 ++ l2) = printed l1 ++ printed l2.
Proof. apply omap_app. Qed.

Lemma printed_map_Print (l : list message) : printed (map Print l) = l.
Proof. induction l as [|m l IH]; simpl; [reflexivity|]. f_equal. exact IH. Qed.

Lemma flat_map_agree {A B} (f g : A -> list B) (l : list A) :
  (forall a, a ∈ l -> f a = g a) -> flat_map f l = flat_map g l.
Proof.
  induction l as [|x l IH]; intros H; simpl; [reflexivity|].
  rewrite (H x) by left. rewrite IH; [reflexivity|].
  intros a Ha. apply H. right. exact Ha.
Qed.

Lemma scan_printed (f : string -> float) (ids : list string) :
  NoDup ids ->
  forall sc : gmap string Z,
    printed (scan f ids sc).2
    = flat_map
        (fun v => vehicle_messages (next_counter (sc !! v) (f v)) v (f v))
        ids.
Proof.
  induction 1 as [|x ids Hx Hnd IH]; intros sc; simpl; [reflexivity|].
  change (printed
            (map Print (vehicle_messages (next_counter (sc !! x) (f x)) x (f x))
             ++ (scan f ids (<[x:=next_counter (sc !! x) (f x)]> sc)).2)
          = vehicle_messages (next_counter (sc !! x) (f x)) x (f x)
            ++ flat_map
                 (fun v =>
                    vehicle_messages (next_counter (sc !! v) (f v)) v (f v))
                 ids).
  rewrite printed_app, printed_map_Print, IH. f_equal.
  apply flat_map_agree. intros v Hv.
  rewrite lookup_insert_ne; [reflexivity|]. intros ->. contradiction.
Qed.

(** X4: the lines of one detection step come in the order of the ID list,
    for each vehicle the stop anomaly before the unauthorized-vehicle line;
    what is printed for a vehicle depends only on its own ID, speed and
    counter. *)
Theorem detection_prints_in_list_order
    {W R : Type} {api : TraCI W}
    (w : W) (st st' : state W R) (ids : list string) :
  detection_step w st = (Ok tt, st') ->
  traci_vehicle_getIDList w = Ok ids ->
  NoDup ids ->
  step_output w st
  = flat_map
      (fun v =>
         (if stopped (speed_or_zero w v)
             && (default 0 (stop_counters st !! v) + 1
                 =? STOP_TIME_THRESHOLD)%Z
          then [StoppedFor v] else [])
         ++ (if startswith v UNAUTHORIZED_VEHICLE_PREFIX
             then [UnauthorizedOnNetwork v] else []))
      ids.
Proof.
  intros Hrun Hids Hnd.
  rewrite (step_output_ok _ _ _ _ Hrun Hids), scan_printed by exact Hnd.
  apply flat_map_agree. intros v _.
  unfold vehicle_messages, next_counter.
  destruct (stopped (speed_or_zero w v)); reflexivity.
Qed.

Lemma detection_prints_in_list_order_witness :
  let w : Toy.world :=
    [("unauth7", 0%float); ("veh1", 13.5%float); ("veh0", 0%float)] in
  let st :=
    state_after (replicate 4 w) (initial w O : state Toy.world nat) in
  step_output w st
  = [StoppedFor "unauth7"; UnauthorizedOnNetwork "unauth7";
     StoppedFor "veh0"].
Proof.
  intros w st.
  rewrite (detection_prints_in_list_order w st (detection_step w st).2
             ["unauth7"; "veh1"; "veh0"]).
  - vm_compute. reflexivity.
  - vm_compute. reflexivity.
  - reflexivity.
  - apply (bool_decide_unpack _). vm_compute. exact I.
Defined.

(** ** Speeds that are not ordinary speeds *)

Lemma SFcompare_refl_not_nan (x : spec_float) :
  x <> S754_nan -> SFcompare x x = Some Eq.
Proof.
  destruct x as [s|s| |s m e]; intros Hx; simpl;
    [reflexivity|destruct s; reflexivity|contradiction|].
  rewrite Z.compare_refl, Pos.compare_cont_refl. destruct s; reflexivity.
Qed.

(** A negative speed is below 0.1. *)
Lemma negative_speed_stopped (s : float) :
  PrimFloat.ltb s 0%float = true -> stopped s = true.
Proof.
  unfold stopped. rewrite !ltb_spec. unfold SFltb.
  set (z := Prim2SF 0%float). vm_compute in z. subst z.
  set (t := Prim2SF tenth). vm_compute in t. subst t.
  destruct (Prim2SF s) as [[]|[]| |[] m e];
    cbv beta iota delta [SFcompare]; intros H;
    first [discriminate H | reflexivity].
Qed.

(** NaN is below nothing. *)
Lemma nan_speed_not_stopped (s : float) :
  PrimFloat.is_nan s = true -> stopped s = false.
Proof.
  unfold PrimFloat.is_nan, stopped.
  rewrite FloatAxioms.eqb_spec, ltb_spec. unfold SFeqb, SFltb.
  destruct (Prim2SF s) as [b|b| |b m e] eqn:E;
    try (rewrite SFcompare_refl_not_nan by discriminate; discriminate).
  reflexivity.
Qed.

(** X5: the test of line 95 on the values a speed query can return besides
    ordinary speeds.  A negative speed (the simulator's "invalid" marker is
    one) counts as stopped and advances the counter; a NaN is not below 0.1,
    so it resets the counter to 0 and nothing is reported. *)
Theorem negative_speed_counts_nan_resets
    {W R : Type} {api : TraCI W}
    (w : W) (st st' : state W R) (v : string) (s : float) :
  distinct_ids w ->
  detection_step w st = (Ok tt, st') ->
  observation w v = Some s ->
  (PrimFloat.ltb s 0%float = true ->
   stop_counters st' !! v = Some (default 0 (stop_counters st !! v) + 1))
  /\ (PrimFloat.is_nan s = true ->
      stop_counters st' !! v = Some 0 /\ ~ flags_stop w st v).
Proof.
  intros Hnd Hrun Ho.
  pose proof (detection_step_counter _ _ _ v Hnd Hrun) as Hc.
  rewrite Ho in Hc. unfold next_counter in Hc.
  split.
  - intros Hneg. rewrite (negative_speed_stopped s Hneg) in Hc. exact Hc.
  - intros Hnan. rewrite (nan_speed_not_stopped s Hnan) in Hc.
    split; [exact Hc|].
    rewrite (detection_step_flag _ _ _ v Hnd Hrun).
    intros (s' & Ho' & Hs' & _).
    assert (s' = s) as -> by congruence.
    rewrite (nan_speed_not_stopped s Hnan) in Hs'. discriminate.
Qed.

Lemma negative_speed_counts_nan_resets_witness :
  let w : Toy.world := [("veh0", (-1073741824)%float); ("veh1", nan)] in
  let st := state_after (replicate 3 Examples.halted) Examples.start_state in
  let st' := (detection_step w st).2 in
  stop_counters st !! "veh0" = Some 3
  /\ stop_counters st' !! "veh0" = Some (3 + 1)
  /\ stop_counters st' !! "veh1" = Some 0.
Proof.
  intros w st st'.
  assert (Hnd : distinct_ids w)
    by (apply toy_distinct_ids, (bool_decide_unpack _); vm_compute; exact I).
  assert (Hrun : detection_step w st = (Ok tt, st'))
    by (vm_compute; reflexivity).
  split; [vm_compute; reflexivity|]. split.
  - apply (negative_speed_counts_nan_resets w st st' "veh0"
             (-1073741824)%float Hnd Hrun eq_refl).
    vm_compute. reflexivity.
  - apply (negative_speed_counts_nan_resets w st st' "veh1" nan
             Hnd Hrun eq_refl).
    vm_compute. reflexivity.
Defined.

(** ** Runs that do not complete *)

Lemma count_marker_app (m : marker) (l1 l2 : list marker) :
  count_marker m (l1 ++ l2) = (count_marker m l1 + count_marker m l2)%nat.
Proof. unfold count_marker. rewrite filter_app, length_app. reflexivity. Qed.

Lemma count_marker_prefix (m : marker) (l1 l2 : list marker) :
  l1 `prefix_of` l2 -> (count_marker m l1 <= count_marker m l2)%nat.
Proof. intros [k ->]. rewrite count_marker_app. lia. Qed.

(** A prefix that contains [x] contains everything up to the first [x]. *)
Lemma prefix_reaches (x : marker) (l a b : list marker) :
  l `prefix_of` a ++ x :: b -> x ∉ a -> x ∈ l -> a ++ [x] `prefix_of` l.
Proof.
  revert l. induction a as [|y a IH]; intros l Hpre Hnotin Hin; simpl in *.
  - destruct l as [|z l]; [inversion Hin|].
    apply prefix_cons_inv_1 in Hpre as ->.
    apply prefix_cons, prefix_nil.
  - apply not_elem_of_cons in Hnotin as [Hne Hnotin].
    destruct l as [|z l]; [inversion Hin|].
    pose proof (prefix_cons_inv_1 _ _ _ _ Hpre) as ->.
    apply prefix_cons_inv_2 in Hpre.
    apply elem_of_cons in Hin as [->|Hin]; [contradiction|].
    apply prefix_cons. apply IH; assumption.
Qed.

Section AnyOutcome.
Context {W R : Type} {api : TraCI W}.
Variable random_choice : R -> list string -> string * R.
Implicit Types (st : state W R).

Lemma simulationStep_any st r st' :
  simulationStep st = (r, st') ->
  exists tr, trace st' = trace st ++ tr /\ skeleton tr = [Tick].
Proof.
  unfold simulationStep, bind, emit, lift_command, raise. simpl.
  destruct (traci_simulationStep (sim st)); intros [= <- <-]; simpl.
  - exists [Api SimulationStep]. auto.
  - exists [Api SimulationStep; Raised e].
    rewrite <- app_assoc. auto.
Qed.

Lemma inject_sudden_stop_anomaly_any st r st' :
  inject_sudden_stop_anomaly random_choice st = (r, st') ->
  exists (b : bool) tr,
    trace st' = trace st ++ tr
    /\ skeleton tr = Poll :: (if b then [Stop] else []).
Proof.
  rewrite inject_sudden_stop_anomaly_eq.
  destruct (traci_vehicle_getIDList (sim st)) as [[|x ids]|e].
  - intros [= <- <-]. exists false. eexists. split; reflexivity.
  - simpl.
    destruct (traci_vehicle_setSpeed (sim st)
                (random_choice (rng st) (x :: ids)).1 0%float);
      intros [= <- <-]; simpl; exists true; eexists;
      (split; [try rewrite <- app_assoc; reflexivity|reflexivity]).
  - intros [= <- <-]. exists false. eexists. split; reflexivity.
Qed.

Lemma inject_unauthorized_vehicle_any (now : Z) st r st' :
  inject_unauthorized_vehicle now st = (r, st') ->
  exists tr, trace st' = trace st ++ tr /\ skeleton tr = [Insert].
Proof.
  rewrite inject_unauthorized_vehicle_eq.
  destruct (traci_vehicle_add (sim st) (new_id now) "route_0" "0" "max" "car")
    as [w|[d|d|k]];
    intros [= <- <-]; eexists; split; reflexivity.
Qed.

Lemma for_each_detect_any (ids : list string) :
  forall st r st',
    for_each ids detect_vehicle st = (r, st') ->
    exists tr, trace st' = trace st ++ tr /\ skeleton tr = [].
Proof.
  induction ids as [|x ids IH]; intros st r st' Hrun; simpl in Hrun.
  - inversion Hrun; subst. exists []. rewrite app_nil_r. auto.
  - unfold bind in Hrun. rewrite detect_vehicle_eq in Hrun.
    destruct (traci_vehicle_getSpeed (sim st) x) as [s|e]; simpl in Hrun.
    + apply IH in Hrun as (tr & Ht & Hs). simpl in Ht.
      eexists. split; [rewrite Ht, <- app_assoc; reflexivity|].
      change (skeleton
                (map Print (vehicle_messages
                              (next_counter (stop_counters st !! x) s) x s)
                 ++ tr) = []).
      rewrite skeleton_app, skeleton_map_Print, Hs. reflexivity.
    + inversion Hrun; subst. simpl. eexists. split; reflexivity.
Qed.

Lemma detect_anomalies_any st r st' :
  detect_anomalies st = (r, st') ->
  exists tr, trace st' = trace st ++ tr /\ skeleton tr = [Poll].
Proof.
  unfold detect_anomalies, bind. rewrite vehicle_getIDList_eq.
  destruct (traci_vehicle_getIDList (sim st)) as [ids|e].
  - intros Hrun. apply for_each_detect_any in Hrun as (tr & Ht & Hs).
    simpl in Ht. eexists. split; [rewrite Ht, <- app_assoc; reflexivity|].
    simpl. change (Poll :: skeleton tr = [Poll]). rewrite Hs. reflexivity.
  - intros [= <- <-]. simpl. eexists. split; reflexivity.
Qed.

Lemma stop_part_any (step : nat) st r st' :
  (if (step =? 50)%nat
   then inject_sudden_stop_anomaly random_choice else ret tt) st = (r, st') ->
  exists (b : bool) tr,
    trace st' = trace st ++ tr
    /\ skeleton tr
       = if (step =? 50)%nat then Poll :: (if b then [Stop] else []) else [].
Proof.
  intros E. destruct (step =? 50)%nat.
  - apply inject_sudden_stop_anomaly_any in E. exact E.
  - inversion E; subst. exists false, []. rewrite app_nil_r. auto.
Qed.

Lemma insert_part_any (now : Z) (step : nat) st r st' :
  (if (step =? 100)%nat
   then inject_unauthorized_vehicle now else ret tt) st = (r, st') ->
  exists tr,
    trace st' = trace st ++ tr
    /\ skeleton tr = if (step =? 100)%nat then [Insert] else [].
Proof.
  intros E. destruct (step =? 100)%nat.
  - apply inject_unauthorized_vehicle_any in E. exact E.
  - inversion E; subst. exists []. rewrite app_nil_r. auto.
Qed.

(** Whatever its outcome, a pass of the loop body sends a prefix of the
    requests of its step. *)
Lemma loop_body_any (now : Z) (step : nat) st r st' :
  loop_body random_choice now step st = (r, st') ->
  exists (b : bool) tr,
    trace st' = trace st ++ tr
    /\ skeleton tr `prefix_of` iteration_markers b step.
Proof.
  unfold loop_body, bind, iteration_markers, injection_markers.
  destruct (simulationStep st) as [[[]|e] sa] eqn:Ea.
  2:{ intros [= <- <-]. apply simulationStep_any in Ea as (tr & Ht & Hs).
      exists false, tr. split; [exact Ht|]. rewrite Hs.
      apply prefix_cons, prefix_nil. }
  apply simulationStep_any in Ea as (tra & Ta & Sa).
  destruct ((if (step =? 50)%nat
             then inject_sudden_stop_anomaly random_choice else ret tt) sa)
    as [[[]|e] sb] eqn:Eb;
    apply stop_part_any in Eb as (b & trb & Tb & Sb).
  2:{ intros [= <- <-]. exists b, (tra ++ trb).
      split; [rewrite Tb, Ta, app_assoc; reflexivity|].
      rewrite skeleton_app, Sa, Sb. simpl.
      apply prefix_cons, prefix_app_r, prefix_app_r. reflexivity. }
  destruct ((if (step =? 100)%nat
             then inject_unauthorized_vehicle now else ret tt) sb)
    as [[[]|e] sc] eqn:Ec;
    apply insert_part_any in Ec as (trc & Tc & Sc).
  2:{ intros [= <- <-]. exists b, (tra ++ trb ++ trc).
      split; [rewrite Tc, Tb, Ta, <- !app_assoc; reflexivity|].
      rewrite !skeleton_app, Sa, Sb, Sc. simpl.
      apply prefix_cons, prefix_app_r. reflexivity. }
  intros Hd. apply detect_anomalies_any in Hd as (trd & Td & Sd).
  exists b, (tra ++ trb ++ trc ++ trd).
  split; [rewrite Td, Tc, Tb, Ta, <- !app_assoc; reflexivity|].
  rewrite !skeleton_app, Sa, Sb, Sc, Sd. simpl.
  rewrite <- !app_assoc. reflexivity.
Qed.

Lemma for_each_any (now : Z) (steps : list nat) :
  50%nat ∉ steps ->
  forall st r st',
    for_each steps (loop_body random_choice now) st = (r, st') ->
    exists tr,
      trace st' = trace st ++ tr
      /\ forall b, skeleton tr `prefix_of` schedule b steps.
Proof.
  induction steps as [|x steps IH]; intros Hnotin st r st' Hrun.
  - inversion Hrun; subst. exists []. rewrite app_nil_r.
    split; [reflexivity|]. intros b. apply prefix_nil.
  - apply not_elem_of_cons in Hnotin as [Hne Hnotin].
    simpl in Hrun. unfold bind in Hrun.
    destruct (loop_body random_choice now x st) as [[[]|e] st1] eqn:Ex.
    + apply loop_body_skeleton in Ex as (b0 & tr1 & T1 & S1).
      destruct (IH Hnotin _ _ _ Hrun) as (tr2 & T2 & S2).
      exists (tr1 ++ tr2). split; [rewrite T2, T1, app_assoc; reflexivity|].
      intros b. rewrite skeleton_app, S1.
      change (schedule b (x :: steps))
        with (iteration_markers b x ++ schedule b steps).
      unfold iteration_markers.
      rewrite (injection_markers_other b0 b x) by congruence.
      apply list.prefix_app, S2.
    + inversion Hrun; subst.
      apply loop_body_any in Ex as (b0 & tr1 & T1 & S1).
      exists tr1. split; [exact T1|].
      intros b.
      change (schedule b (x :: steps))
        with (iteration_markers b x ++ schedule b steps).
      apply prefix_app_r.
      unfold iteration_markers in *.
      rewrite (injection_markers_other b b0 x) by congruence. exact S1.
Qed.

Lemma main_loop_any (now : Z) st r st' :
  for_each (range 300) (loop_body random_choice now) st = (r, st') ->
  exists (b : bool) tr,
    trace st' = trace st ++ tr
    /\ skeleton tr `prefix_of` schedule b (range 300).
Proof.
  change (range 300) with (seq 0 50 ++ [50%nat] ++ seq 51 249).
  assert (H1 : 50%nat ∉ seq 0 50)
    by (apply (bool_decide_unpack _); vm_compute; exact I).
  assert (H3 : 50%nat ∉ seq 51 249)
    by (apply (bool_decide_unpack _); vm_compute; exact I).
  rewrite for_each_app.
  destruct (for_each (seq 0 50) (loop_body random_choice now) st)
    as [[[]|e] s1] eqn:E1.
  2:{ intros [= <- <-]. apply for_each_any in E1 as (tr1 & T1 & S1); [|exact H1].
      exists false, tr1. split; [exact T1|].
      unfold schedule. rewrite flat_map_app. apply prefix_app_r, S1. }
  apply for_each_skeleton in E1 as (tr1 & T1 & S1); [|exact H1].
  rewrite for_each_app.
  change (for_each [50%nat] (loop_body random_choice now) s1)
    with (bind (loop_body random_choice now 50) (fun _ => ret tt) s1).
  unfold bind at 1.
  destruct (loop_body random_choice now 50 s1) as [[[]|e] s2] eqn:E2.
  2:{ intros [= <- <-]. apply loop_body_any in E2 as (b & tr2 & T2 & S2).
      exists b, (tr1 ++ tr2).
      split; [rewrite T2, T1, app_assoc; reflexivity|].
      rewrite skeleton_app, (S1 b). unfold schedule.
      rewrite !flat_map_app. apply list.prefix_app.
      change (flat_map (iteration_markers b) [50%nat])
        with (iteration_markers b 50 ++ []).
      rewrite app_nil_r. apply prefix_app_r, S2. }
  apply loop_body_skeleton in E2 as (b & tr2 & T2 & S2).
  unfold ret at 1. intros E3.
  apply for_each_any in E3 as (tr3 & T3 & S3); [|exact H3].
  exists b, (tr1 ++ tr2 ++ tr3).
  split; [rewrite T3, T2, T1, <- !app_assoc; reflexivity|].
  rewrite !skeleton_app, (S1 b), S2. unfold schedule.
  rewrite !flat_map_app. apply list.prefix_app.
  change (flat_map (iteration_markers b) [50%nat])
    with (iteration_markers b 50 ++ []).
  rewrite app_nil_r. apply list.prefix_app, S3.
Qed.

Lemma run_simulation_any (now : Z) st r st' :
  run_simulation random_choice now st = (r, st') ->
  exists b : bool,
    skeleton (new_events st st') `prefix_of` schedule b (range 300).
Proof.
  unfold run_simulation, bind.
  destruct (start sumo_cmd st) as [[[]|e] s0] eqn:E0.
  2:{ intros [= <- <-]. exists false.
      unfold start, bind, emit, lift_command, raise in E0. simpl in E0.
      destruct (traci_start (sim st) sumo_cmd); inversion E0; subst.
      erewrite new_events_app; [|simpl; rewrite <- app_assoc; reflexivity].
      apply prefix_nil. }
  assert (T0 : trace s0 = trace st ++ [Api (Start sumo_cmd)]).
  { unfold start, bind, emit, lift_command, raise in E0. simpl in E0.
    destruct (traci_start (sim st) sumo_cmd); inversion E0; reflexivity. }
  destruct (print InfoStarted s0) as [[[]|e] s1] eqn:Ep;
    [|inversion Ep].
  assert (T1 : trace s1 = trace s0 ++ [Print InfoStarted])
    by (inversion Ep; reflexivity).
  destruct (for_each (range 300) (loop_body random_choice now) s1)
    as [[[]|e] s2] eqn:El;
    apply main_loop_any in El as (b & tr & T2 & S2);
    intros [= <- <-]; exists b;
    (erewrite new_events_app;
     [|simpl; rewrite T2, T1, T0, <- !app_assoc; reflexivity]);
    rewrite !skeleton_app;
    change (skeleton [Api (Start sumo_cmd)]) with (@nil marker);
    change (skeleton [Print InfoStarted]) with (@nil marker);
    try change (skeleton [Print InfoFinished]) with (@nil marker);
    rewrite ?app_nil_r; exact S2.
Qed.

End AnyOutcome.

(** X6: whatever the outcome of [run_simulation], also when an exception
    ends it early, the requests it has sent are an initial part of the
    schedule of the loop.  So no run sends more than one [setSpeed] request,
    more than one insertion request or more than 300 simulation steps, and a
    [setSpeed] request is never sent before the 51st simulation step, an
    insertion request never before the 101st. *)
Theorem any_run_stays_within_schedule
    {W R : Type} {api : TraCI W}
    (random_choice : R -> list string -> string * R)
    (now : Z) (st st' : state W R) (r : outcome unit) :
  run_simulation random_choice now st = (r, st') ->
  (exists stop_sent : bool,
      skeleton (new_events st st') `prefix_of` schedule stop_sent (range 300))
  /\ (count_marker Stop (skeleton (new_events st st')) <= 1)%nat
  /\ (count_marker Insert (skeleton (new_events st st')) <= 1)%nat
  /\ (count_marker Tick (skeleton (new_events st st')) <= 300)%nat
  /\ (Stop ∈ skeleton (new_events st st') ->
      (51 <= count_marker Tick (skeleton (new_events st st')))%nat)
  /\ (Insert ∈ skeleton (new_events st st') ->
      (101 <= count_marker Tick (skeleton (new_events st st')))%nat).
Proof.
  intros Hrun.
  destruct (run_simulation_any random_choice now st r st' Hrun) as [b Hpre].
  set (sk := skeleton (new_events st st')) in *.
  split; [exists b; exact Hpre|].
  split.
  { etransitivity; [apply (count_marker_prefix Stop _ _ Hpre)|].
    destruct b; vm_compute; lia. }
  split.
  { etransitivity; [apply (count_marker_prefix Insert _ _ Hpre)|].
    destruct b; vm_compute; lia. }
  split.
  { etransitivity; [apply (count_marker_prefix Tick _ _ Hpre)|].
    destruct b; vm_compute; lia. }
  split.
  - intros Hin. destruct b.
    + assert (Hsplit : schedule true (range 300)
                       = (schedule true (seq 0 50) ++ [Tick; Poll])
                           ++ Stop :: Poll :: schedule true (seq 51 249))
        by (vm_compute; reflexivity).
      rewrite Hsplit in Hpre.
      apply prefix_reaches in Hpre;
        [|apply (bool_decide_unpack _); vm_compute; exact I|exact Hin].
      etransitivity; [|apply (count_marker_prefix Tick _ _ Hpre)].
      vm_compute. lia.
    + exfalso. destruct Hpre as [k Hk].
      assert (Hin' : Stop ∈ schedule false (range 300))
        by (rewrite Hk; apply elem_of_app; left; exact Hin).
      revert Hin'. apply (bool_decide_unpack _). vm_compute. exact I.
  - intros Hin.
    assert (Hsplit : schedule b (range 300)
                     = (schedule b (seq 0 100) ++ [Tick])
                         ++ Insert :: Poll :: schedule b (seq 101 199))
      by (destruct b; vm_compute; reflexivity).
    rewrite Hsplit in Hpre.
    apply prefix_reaches in Hpre;
      [|destruct b; apply (bool_decide_unpack _); vm_compute; exact I
       |exact Hin].
    etransitivity; [|apply (count_marker_prefix Tick _ _ Hpre)].
    destruct b; vm_compute; lia.
Qed.

Lemma any_run_stays_within_schedule_witness :
  let st : state Toy.world nat := initial Examples.halted O in
  let out := @run_simulation _ _ Toy.stale Toy.random_choice 1700000000 st in
  out.1 = Raise (TraCIException "Vehicle 'ghost' is not known.")
  /\ (count_marker Stop (skeleton (new_events st out.2)) <= 1)%nat
  /\ (count_marker Insert (skeleton (new_events st out.2)) <= 1)%nat.
Proof.
  intros st out. split; [vm_compute; reflexivity|].
  destruct (@any_run_stays_within_schedule _ _ Toy.stale Toy.random_choice
              1700000000 st out.2 out.1)
    as (_ & Hstop & Hins & _).
  - subst out. apply surjective_pairing.
  - split; [exact Hstop|exact Hins].
Defined.

(** ** The identifier of the inserted vehicle *)

Lemma to_int_not_nil (n : Z) :
  Z.to_int n <> Decimal.Pos Decimal.Nil /\ Z.to_int n <> Decimal.Neg Decimal.Nil.
Proof.
  destruct n as [|p|p]; simpl; split; try discriminate;
    intros [= H]; exact (DecimalPos.Unsigned.to_uint_nonnil p H).
Qed.

(** [str] loses nothing: the integer can be read back from its digits. *)
Lemma str_int_parse (n : Z) :
  NilZero.int_of_string (str_int n) = Some (Z.to_int n).
Proof.
  unfold str_int. destruct (to_int_not_nil n) as [Hp Hn].
  apply NilZero.isi; assumption.
Qed.

(** X7: the vehicle ID built on line 74 determines the clock reading it was
    built from: different readings of [int(time.time())] give different
    IDs, equal readings the same ID. *)
Theorem new_id_determines_clock (now now' : Z) :
  new_id now = new_id now' <-> now = now'.
Proof.
  split; [|intros ->; reflexivity].
  unfold new_id, UNAUTHORIZED_VEHICLE_PREFIX. simpl. intros [= H].
  change (str_int now = str_int now') in H. apply DecimalZ.to_int_inj.
  pose proof (str_int_parse now) as H1. pose proof (str_int_parse now') as H2.
  rewrite H in H1. congruence.
Qed.

(** ** The two [INFO] lines *)

Section Emits.
Context {W R : Type} {api : TraCI W}.
Variable random_choice : R -> list string -> string * R.

Lemma emits_ret {A} (P : event -> Prop) (a : A) : emits P (@ret W R A a).
Proof.
  intros st r st' [= <- <-]. exists []. rewrite app_nil_r. auto.
Qed.

Lemma emits_bind {A B} (P : event -> Prop)
    (m : M W R A) (k : A -> M W R B) :
  emits P m -> (forall a, emits P (k a)) -> emits P (bind m k).
Proof.
  intros Hm Hk st r st' Hrun. unfold bind in Hrun.
  destruct (m st) as [[a|e] st1] eqn:Em.
  - destruct (Hm _ _ _ Em) as (tr1 & T1 & P1).
    destruct (Hk a _ _ _ Hrun) as (tr2 & T2 & P2).
    exists (tr1 ++ tr2). split; [rewrite T2, T1, app_assoc; reflexivity|].
    apply Forall_app. auto.
  - inversion Hrun; subst. exact (Hm _ _ _ Em).
Qed.

Lemma emits_for_each {A} (P : event -> Prop)
    (l : list A) (body : A -> M W R unit) :
  (forall x, emits P (body x)) -> emits P (for_each l body).
Proof.
  intros Hbody. induction l as [|x l IH]; simpl.
  - apply emits_ret.
  - apply emits_bind; [apply Hbody | intros _; exact IH].
Qed.

Lemma emits_simulationStep : emits loop_event (@simulationStep W R api).
Proof.
  intros st r st' Hrun.
  unfold simulationStep, bind, emit, lift_command, raise in Hrun.
  simpl in Hrun.
  destruct (traci_simulationStep (sim st)); inversion Hrun; subst; simpl;
    eexists; (split; [try rewrite <- app_assoc; reflexivity|]);
    repeat constructor.
Qed.

Lemma emits_inject_sudden_stop_anomaly :
  emits loop_event (inject_sudden_stop_anomaly random_choice).
Proof.
  intros st r st' Hrun. rewrite inject_sudden_stop_anomaly_eq in Hrun.
  destruct (traci_vehicle_getIDList (sim st)) as [[|x ids]|e].
  - inversion Hrun; subst. eexists. split; [reflexivity|repeat constructor].
  - simpl in Hrun.
    destruct (traci_vehicle_setSpeed (sim st)
                (random_choice (rng st) (x :: ids)).1 0%float);
      inversion Hrun; subst; simpl; eexists;
      (split; [try rewrite <- app_assoc; reflexivity|]);
      repeat constructor.
  - inversion Hrun; subst. eexists. split; [reflexivity|repeat constructor].
Qed.

Lemma emits_inject_unauthorized_vehicle (now : Z) :
  emits loop_event (@inject_unauthorized_vehicle W R api now).
Proof.
  intros st r st' Hrun. rewrite inject_unauthorized_vehicle_eq in Hrun.
  destruct (traci_vehicle_add (sim st) (new_id now) "route_0" "0" "max" "car")
    as [w|[d|d|k]];
    inversion Hrun; subst; eexists; (split; [reflexivity|]);
    repeat constructor.
Qed.

Lemma loop_event_messages (c : Z) (vid : string) (s : float) :
  Forall loop_event (map Print (vehicle_messages c vid s)).
Proof.
  unfold vehicle_messages.
  destruct (stopped s && (c =? STOP_TIME_THRESHOLD)%Z);
    destruct (startswith vid UNAUTHORIZED_VEHICLE_PREFIX);
    repeat constructor.
Qed.

Lemma emits_detect_vehicle (vid : string) :
  emits loop_event (@detect_vehicle W R api vid).
Proof.
  intros st r st' Hrun. rewrite detect_vehicle_eq in Hrun.
  destruct (traci_vehicle_getSpeed (sim st) vid) as [s|e];
    inversion Hrun; subst; simpl; eexists; (split; [reflexivity|]).
  - constructor; [exact I|apply loop_event_messages].
  - repeat constructor.
Qed.

Lemma emits_detect_anomalies : emits loop_event (@detect_anomalies W R api).
Proof.
  apply emits_bind.
  - intros st r st' Hrun. rewrite vehicle_getIDList_eq in Hrun.
    destruct (traci_vehicle_getIDList (sim st));
      inversion Hrun; subst; eexists; (split; [reflexivity|]);
      repeat constructor.
  - intros ids. apply emits_for_each, emits_detect_vehicle.
Qed.

Lemma emits_loop_body (now : Z) (step : nat) :
  emits loop_event (loop_body random_choice now step).
Proof.
  apply emits_bind; [apply emits_simulationStep|].
  intros _. apply emits_bind.
  { destruct (step =? 50)%nat;
      [apply emits_inject_sudden_stop_anomaly | apply emits_ret]. }
  intros _. apply emits_bind.
  { destruct (step =? 100)%nat;
      [apply emits_inject_unauthorized_vehicle | apply emits_ret]. }
  intros _. apply emits_detect_anomalies.
Qed.

Lemma loop_event_not_finished (tr : list event) :
  Forall loop_event tr -> Print InfoFinished ∉ tr.
Proof.
  intros Hall Hin. rewrite Forall_forall in Hall.
  exact (Hall _ Hin).
Qed.

End Emits.

(** X9: the frame of a run.  The start request is always the first event
    and is never repeated.  When the run completes, the "started" line
    follows it directly and the "finished" line is the last event; when an
    exception ends the run, the "finished" line is never printed. *)
Theorem finished_line_marks_complete_run
    {W R : Type} {api : TraCI W}
    (random_choice : R -> list string -> string * R)
    (now : Z) (st st' : state W R) (r : outcome unit) :
  run_simulation random_choice now st = (r, st') ->
  (exists rest,
      new_events st st' = Api (Start sumo_cmd) :: rest
      /\ forall cmd, Api (Start cmd) ∉ rest)
  /\ match r with
     | Ok _ =>
         exists mid,
           new_events st st'
           = Api (Start sumo_cmd) :: Print InfoStarted
               :: mid ++ [Print InfoFinished]
           /\ Forall loop_event mid
     | Raise _ => Print InfoFinished ∉ new_events st st'
     end.
Proof.
  unfold run_simulation, bind.
  destruct (start sumo_cmd st) as [[[]|e] s0] eqn:E0.
  2:{ intros [= <- <-].
      unfold start, bind, emit, lift_command, raise in E0. simpl in E0.
      destruct (traci_start (sim st) sumo_cmd); inversion E0; subst.
      erewrite new_events_app; [|simpl; rewrite <- app_assoc; reflexivity].
      split.
      - eexists. split; [reflexivity|].
        intros cmd Hin. apply list_elem_of_In in Hin.
        destruct Hin as [?|[]]; discriminate.
      - intros Hin. apply list_elem_of_In in Hin.
        destruct Hin as [?|[?|[]]]; discriminate. }
  assert (T0 : trace s0 = trace st ++ [Api (Start sumo_cmd)]).
  { unfold start, bind, emit, lift_command, raise in E0. simpl in E0.
    destruct (traci_start (sim st) sumo_cmd); inversion E0; reflexivity. }
  destruct (print InfoStarted s0) as [[[]|e] s1] eqn:Ep; [|inversion Ep].
  assert (T1 : trace s1 = trace s0 ++ [Print InfoStarted])
    by (inversion Ep; reflexivity).
  destruct (for_each (range 300) (loop_body random_choice now) s1)
    as [[[]|e] s2] eqn:El;
    apply (emits_for_each loop_event (range 300) _
             (emits_loop_body random_choice now)) in El
      as (mid & T2 & Hmid);
    intros [= <- <-];
    (erewrite new_events_app;
     [|simpl; rewrite T2, T1, T0, <- !app_assoc; reflexivity]).
  - split.
    + eexists. split; [reflexivity|].
      intros cmd Hin. apply list_elem_of_In in Hin. simpl in Hin.
      destruct Hin as [?|Hin]; [discriminate|].
      apply in_app_or in Hin as [Hin|[?|[]]]; [|discriminate].
      rewrite Forall_forall in Hmid.
      apply list_elem_of_In in Hin. exact (Hmid _ Hin).
    + exists mid. split; [reflexivity|exact Hmid].
  - split.
    + eexists. split; [reflexivity|].
      intros cmd Hin. apply list_elem_of_In in Hin. simpl in Hin.
      destruct Hin as [?|Hin]; [discriminate|].
      rewrite Forall_forall in Hmid.
      apply list_elem_of_In in Hin. exact (Hmid _ Hin).
    + intros Hin. apply list_elem_of_In in Hin. simpl in Hin.
      destruct Hin as [?|[?|Hin]]; [discriminate|discriminate|].
      apply list_elem_of_In in Hin.
      exact (loop_event_not_finished mid Hmid Hin).
Qed.

Lemma finished_line_marks_complete_run_witness :
  let st : state Toy.world nat := initial Examples.halted O in
  let out := @run_simulation _ _ Toy.stale Toy.random_choice 1700000000 st in
  out.1 = Raise (TraCIException "Vehicle 'ghost' is not known.")
  /\ Print InfoFinished ∉ new_events st out.2.
Proof.
  intros st out.
  assert (Hout : out.1 = Raise (TraCIException "Vehicle 'ghost' is not known."))
    by (vm_compute; reflexivity).
  split; [exact Hout|].
  pose proof (@finished_line_marks_complete_run _ _ Toy.stale
                Toy.random_choice 1700000000 st out.2 out.1
                (surjective_pairing out)) as [_ H].
  rewrite Hout in H. exact H.
Defined.

(** ** What the injection lines tell *)

(** X10: the two injections announce differently.  The stop injection
    prints its line before it sends the request: when [setSpeed] then
    raises, the line "Forcing ... to stop" is in the output although no
    vehicle was stopped and the simulation is unchanged.  The insertion
    prints its line only after the request has succeeded: the line
    "Injecting unauthorized vehicle" is in the output exactly when the
    simulator accepted the vehicle. *)
Theorem injection_lines_and_effects
    {W R : Type} {api : TraCI W}
    (random_choice : R -> list string -> string * R)
    (now : Z) (st : state W R) :
  (forall ids e,
      traci_vehicle_getIDList (sim st) = Ok ids ->
      ids <> [] ->
      traci_vehicle_setSpeed (sim st) (random_choice (rng st) ids).1 0%float
        = Raise e ->
      (inject_sudden_stop_anomaly random_choice st).1 = Raise e
      /\ printed (new_events st (inject_sudden_stop_anomaly random_choice st).2)
         = [ForcingStop (random_choice (rng st) ids).1]
      /\ sim (inject_sudden_stop_anomaly random_choice st).2 = sim st)
  /\ (InjectingUnauthorized (new_id now)
        ∈ printed (new_events st (inject_unauthorized_vehicle now st).2)
      <-> exists w,
            traci_vehicle_add (sim st) (new_id now) "route_0" "0" "max" "car"
              = Ok w
            /\ (inject_unauthorized_vehicle now st).1 = Ok tt
            /\ sim (inject_unauthorized_vehicle now st).2 = w).
Proof.
  split.
  - intros ids e Hids Hne Hset.
    rewrite inject_sudden_stop_anomaly_eq, Hids.
    destruct ids as [|x ids]; [contradiction|].
    simpl. rewrite Hset. simpl.
    split; [reflexivity|]. split; [|reflexivity].
    erewrite new_events_app; [|simpl; rewrite <- app_assoc; reflexivity].
    reflexivity.
  - rewrite inject_unauthorized_vehicle_eq.
    destruct (traci_vehicle_add (sim st) (new_id now) "route_0" "0" "max" "car")
      as [w|[d|d|k]]; simpl;
      (erewrite new_events_app; [|reflexivity]); simpl.
    + split; [intros _; exists w; auto|].
      intros _. apply list_elem_of_In. simpl. auto.
    + split; [|intros (w & [=] & _)].
      intros Hin. apply list_elem_of_In in Hin.
      destruct Hin as [?|[]]; discriminate.
    + split; [|intros (w & [=] & _)].
      intros Hin. apply list_elem_of_In in Hin. destruct Hin.
    + split; [|intros (w & [=] & _)].
      intros Hin. apply list_elem_of_In in Hin. destruct Hin.
Qed.

Lemma injection_lines_and_effects_witness :
  let st : state Toy.world nat := initial Examples.halted 2%nat in
  let out := @inject_sudden_stop_anomaly _ _ Toy.stale Toy.random_choice st in
  out.1 = Raise (TraCIException "Vehicle 'ghost' is not known.")
  /\ printed (new_events st out.2) = [ForcingStop "ghost"]
  /\ sim out.2 = sim st.
Proof.
  intros st out.
  destruct (@injection_lines_and_effects _ _ Toy.stale Toy.random_choice
              1700000000 st) as [H _].
  apply (H ["veh0"; "veh1"; "ghost"]
           (TraCIException "Vehicle 'ghost' is not known.")).
  - reflexivity.
  - discriminate.
  - reflexivity.
Defined.

(** ** The counters at the end of a run *)

Section RunWorlds.
Context {W R : Type} {api : TraCI W}.
Variable random_choice : R -> list string -> string * R.
Implicit Types (st : state W R).

Lemma loop_body_split (now : Z) (step : nat) st :
  loop_body random_choice now step st =
  match before_detection random_choice now step st with
  | (Ok _, s1) => detect_anomalies s1
  | (Raise e, s1) => (Raise e, s1)
  end.
Proof.
  unfold loop_body, before_detection, bind.
  destruct (simulationStep st) as [[[]|e] sa]; [|reflexivity].
  destruct ((if (step =? 50)%nat
             then inject_sudden_stop_anomaly random_choice else ret tt) sa)
    as [[[]|e] sb]; [|reflexivity].
  destruct ((if (step =? 100)%nat
             then inject_unauthorized_vehicle now else ret tt) sb)
    as [[[]|e] sc]; reflexivity.
Qed.

(** Nothing before detection writes the counters. *)
Lemma before_detection_counters (now : Z) (step : nat) st s1 :
  before_detection random_choice now step st = (Ok tt, s1) ->
  stop_counters s1 = stop_counters st.
Proof.
  unfold before_detection, bind.
  destruct (simulationStep st) as [[[]|e] sa] eqn:Ea; [|discriminate].
  apply simulationStep_ok in Ea as [_ Ca].
  destruct ((if (step =? 50)%nat
             then inject_sudden_stop_anomaly random_choice else ret tt) sa)
    as [[[]|e] sb] eqn:Eb; [|discriminate].
  assert (Cb : stop_counters sb = stop_counters sa).
  { destruct (step =? 50)%nat.
    - apply inject_sudden_stop_anomaly_ok in Eb. tauto.
    - inversion Eb; reflexivity. }
  intros Ec.
  assert (Cc : stop_counters s1 = stop_counters sb).
  { destruct (step =? 100)%nat.
    - apply inject_unauthorized_vehicle_ok in Ec. tauto.
    - inversion Ec; reflexivity. }
  congruence.
Qed.

(** The loop leaves in [stop_counters] what the detection steps alone
    leave, run on the simulator states its detection calls ran in. *)
Lemma main_loop_worlds (now : Z) (steps : list nat) :
  forall st (sh : state W R) st',
    stop_counters sh = stop_counters st ->
    for_each steps (loop_body random_choice now) st = (Ok tt, st') ->
    length (loop_worlds random_choice now steps st) = length steps
    /\ exists sh',
         detection_steps (loop_worlds random_choice now steps st) sh
         = (Ok tt, sh')
         /\ stop_counters sh' = stop_counters st'.
Proof.
  induction steps as [|x steps IH]; intros st sh st' Hsc Hrun.
  - inversion Hrun; subst. split; [reflexivity|]. exists sh. auto.
  - simpl in Hrun. unfold bind in Hrun. rewrite loop_body_split in Hrun.
    simpl loop_worlds.
    destruct (before_detection random_choice now x st) as [[[]|e] s1] eqn:Eb;
      [|discriminate].
    pose proof (before_detection_counters _ _ _ _ Eb) as Cb.
    destruct (detect_anomalies s1) as [[[]|e] st1] eqn:Ed; [|discriminate].
    destruct (detect_anomalies_counters s1 (at_world (sim s1) sh) st1)
      as (sh1 & Hd1 & Hc1); [reflexivity|simpl; congruence|exact Ed|].
    destruct (IH st1 sh1 st' Hc1 Hrun) as (Hlen & sh' & Hsteps & Hc').
    split; [simpl; congruence|].
    exists sh'. split; [|exact Hc'].
    simpl. unfold detection_step. rewrite Hd1. exact Hsteps.
Qed.

End RunWorlds.

(** X8: only detection writes [stop_counters].  After a complete run the
    map is exactly what the 300 calls of [detect_anomalies] alone leave when
    run, one after the other, on the simulator states those calls ran in
    ([run_worlds]): starting the simulation, stepping it and both
    injections never touch it.  From the empty map of program start every
    stored counter is therefore the length of the trailing run of the
    vehicle's sightings below 0.1 over these 300 states. *)
Theorem run_counters_are_detection_counters
    {W R : Type} {api : TraCI W}
    (random_choice : R -> list string -> string * R)
    (now : Z) (st st' : state W R) :
  run_simulation random_choice now st = (Ok tt, st') ->
  length (run_worlds random_choice now st) = 300%nat
  /\ detection_steps (run_worlds random_choice now st) st
     = (Ok tt, state_after (run_worlds random_choice now st) st)
  /\ stop_counters (state_after (run_worlds random_choice now st) st)
     = stop_counters st'
  /\ (stop_counters st = ∅ ->
      Forall distinct_ids (run_worlds random_choice now st) ->
      forall v c,
        stop_counters st' !! v = Some c ->
        c = Z.of_nat
              (trailing_streak
                 (observations (run_worlds random_choice now st) v))).
Proof.
  unfold run_simulation, run_worlds, bind.
  destruct (start sumo_cmd st) as [[[]|e] s0] eqn:E0; [|discriminate].
  assert (C0 : stop_counters s0 = stop_counters st).
  { unfold start, bind, emit, lift_command, raise in E0. simpl in E0.
    destruct (traci_start (sim st) sumo_cmd); inversion E0; reflexivity. }
  destruct (print InfoStarted s0) as [[[]|e] s1] eqn:Ep; [|discriminate].
  assert (C1 : stop_counters s1 = stop_counters s0)
    by (inversion Ep; reflexivity).
  destruct (for_each (range 300) (loop_body random_choice now) s1)
    as [[[]|e] s2] eqn:El; [|discriminate].
  intros Hp.
  assert (C2 : stop_counters st' = stop_counters s2)
    by (inversion Hp; reflexivity).
  clear Hp. cbv beta iota.
  destruct (main_loop_worlds random_choice now (range 300) s1 st s2)
    as (Hlen & sh & Hsteps & Hc); [congruence|exact El|].
  set (ws := loop_worlds random_choice now (range 300) s1) in *.
  assert (Hafter : state_after ws st = sh)
    by (unfold state_after; rewrite Hsteps; reflexivity).
  rewrite Hafter, C2.
  split; [rewrite Hlen; reflexivity|].
  split; [exact Hsteps|]. split; [exact Hc|].
  intros Hempty Hnd v c Hv.
  rewrite <- Hc, (detection_steps_counter _ _ _ v Hnd Hsteps) in Hv.
  rewrite Hempty, lookup_empty in Hv.
  pose proof (counter_after_streak (observations ws v)) as Hs.
  rewrite Hv in Hs. exact Hs.
Qed.

Lemma run_counters_are_detection_counters_witness :
  let st : state Toy.world nat := initial Examples.moving 1%nat in
  let out := run_simulation Toy.random_choice 1700000000 st in
  let ws := run_worlds Toy.random_choice 1700000000 st in
  out = (Ok tt, out.2)
  /\ length ws = 300%nat
  /\ stop_counters (state_after ws st) = stop_counters out.2
  /\ stop_counters out.2 !! "veh1" = Some 250
  /\ 250 = Z.of_nat (trailing_streak (observations ws "veh1")).
Proof.
  intros st out ws.
  assert (Hrun : run_simulation Toy.random_choice 1700000000 st
                 = (Ok tt, out.2)) by (vm_compute; reflexivity).
  assert (Hv : stop_counters out.2 !! "veh1" = Some 250)
    by (vm_compute; reflexivity).
  destruct (run_counters_are_detection_counters Toy.random_choice
              1700000000 st out.2 Hrun) as (Hlen & _ & Hc & Hstreak).
  split; [exact Hrun|]. split; [exact Hlen|]. split; [exact Hc|].
  split; [exact Hv|].
  apply (Hstreak eq_refl); [|exact Hv].
  apply Forall_forall. intros w Hw. apply toy_distinct_ids.
  revert w Hw. apply Forall_forall.
  apply (bool_decide_unpack _). vm_compute. exact I.
Defined.
